(** * MessageThread: the timer/message scheduler of libtgvoip

    Shallow embedding of [src/3rdparty/libtgvoip/MessageThread.cpp].

    Modelling choices.
    - Time ([VoIPController::GetCurrentTime], [deliverAt], [delay],
      [interval]) is a [double] in the source; it is modelled here as an
      exact integer number of clock ticks ([Z]).  The value [0] keeps its
      role of the "deliver immediately" sentinel.
    - Message ids are [uint32_t] ([Post] returns [uint32_t], [Cancel]
      takes one): the counter [lastMessageID] is an [N] kept below
      [2^32], and [lastMessageID++] wraps modulo [2^32].
    - A callback ([std::function<void()>]) is a function name
      ([option nat], [None] for [nullptr]).  What the callback does to
      the scheduler is given by [body f k]: the list of scheduler calls
      made by the [k]-th invocation (counting from 0) of [f].  From the
      scheduler thread a callback may only call [Post], [Cancel] and
      [CancelSelf] (they skip the lock when [IsCurrent()]); [Stop] and
      [HardStop] would relock the non-reentrant [queueMutex].  Time may
      pass while the callback runs ([OTick]).
    - [log] is a ghost trace: every message whose callback is invoked,
      as it is at the moment of the call (after the sentinel is stamped).
    - The worker loop [Run] is a labelled transition system over a
      program point ([AtHead], [Waiting], [Exited]) and the object's
      state.  Other threads only get [queueMutex] while the worker waits
      (or after it has left the loop), so their calls are events enabled
      in those phases only. *)

From Stdlib Require Import ZArith NArith List Bool Sorted Lia.
Import ListNotations.
Open Scope Z_scope.

(** ** Data model *)

(** [struct MessageThread::Message] *)
Record Message := mkMessage {
  id : N;
  deliverAt : Z;
  interval : Z;
  func : option nat
}.

(** [uint32_t] wrap-around of [lastMessageID++]. *)
Definition uint32_modulus : N := 4294967296.
Definition uint32_succ (x : N) : N := N.modulo (x + 1) uint32_modulus.

(** Scheduler calls a callback can make from the scheduler thread. *)
Inductive op :=
| OPost (f : option nat) (delay interval : Z)
| OCancel (x : N)
| OCancelSelf
| OTick (dt : N).

(** The fields of [MessageThread] the scheduler uses, plus the clock
    and the ghost [log]. *)
Record State := mkState {
  running : bool;
  hardStopped : bool;
  queue : list Message;
  lastMessageID : N;
  cancelCurrent : bool;
  now : Z;
  log : list Message
}.

Definition set_queue (q : list Message) (st : State) : State :=
  mkState (running st) (hardStopped st) q (lastMessageID st)
          (cancelCurrent st) (now st) (log st).
Definition set_cancelCurrent (b : bool) (st : State) : State :=
  mkState (running st) (hardStopped st) (queue st) (lastMessageID st)
          b (now st) (log st).
Definition set_now (t : Z) (st : State) : State :=
  mkState (running st) (hardStopped st) (queue st) (lastMessageID st)
          (cancelCurrent st) t (log st).
Definition set_log (l : list Message) (st : State) : State :=
  mkState (running st) (hardStopped st) (queue st) (lastMessageID st)
          (cancelCurrent st) (now st) l.
Definition with_deliverAt (t : Z) (m : Message) : Message :=
  mkMessage (id m) t (interval m) (func m).

(** ** [MessageThread::InsertMessageInternal] *)

(** The [for] loop over [insertAfter], [next = std::next(insertAfter)]:
    insert before [next] when [next] is the end, or when
    [next->deliverAt > m.deliverAt && insertAfter->deliverAt <= m.deliverAt]. *)
Fixpoint insert_after_loop (m : Message) (q : list Message) : list Message :=
  match q with
  | [] => []
  | x :: rest =>
      match rest with
      | [] => [x; m]
      | y :: _ =>
          if (deliverAt m <? deliverAt y) && (deliverAt x <=? deliverAt m)
          then x :: m :: rest
          else x :: insert_after_loop m rest
      end
  end.

Definition InsertMessageInternal (m : Message) (q : list Message) : list Message :=
  match q with
  | [] => [m]
  | q0 :: _ =>
      if deliverAt m <? deliverAt q0 then m :: q
      else insert_after_loop m q
  end.

(** ** [MessageThread::Post] (returns the new state and the id) *)
Definition Post (f : option nat) (delay ival : Z) (st : State) : State * N :=
  let currentTime := now st in
  let m := mkMessage (lastMessageID st)
                     (if delay =? 0 then 0 else currentTime + delay)
                     ival f in
  (mkState (running st) (hardStopped st)
           (InsertMessageInternal m (queue st))
           (uint32_succ (lastMessageID st))
           (cancelCurrent st) (now st) (log st),
   id m).

(** ** [MessageThread::Cancel]: the erase loop *)
Fixpoint cancel_loop (x : N) (q : list Message) : list Message :=
  match q with
  | [] => []
  | m :: rest =>
      if (id m =? x)%N then cancel_loop x rest else m :: cancel_loop x rest
  end.

Definition Cancel (x : N) (st : State) : State :=
  set_queue (cancel_loop x (queue st)) st.

(** ** [MessageThread::CancelSelf] *)
Definition CancelSelf (st : State) : State := set_cancelCurrent true st.

(** ** [MessageThread::Stop] and [MessageThread::HardStop] *)
Definition Stop (st : State) : State :=
  mkState false (hardStopped st) [] (lastMessageID st)
          (cancelCurrent st) (now st) (log st).

Definition HardStop (st : State) : State :=
  mkState false true [] (lastMessageID st)
          (cancelCurrent st) (now st) (log st).

(** A scheduler call made from inside a callback. *)
Definition exec_op (o : op) (st : State) : State :=
  match o with
  | OPost f d i => fst (Post f d i st)
  | OCancel x => Cancel x st
  | OCancelSelf => CancelSelf st
  | OTick dt => set_now (now st + Z.of_N dt) st
  end.

Fixpoint run_ops (ops : list op) (st : State) : State :=
  match ops with
  | [] => st
  | o :: os => run_ops os (exec_op o st)
  end.

(** ** [MessageThread::Run] *)

(** The drain loop: every message with [deliverAt==0.0 || currentTime>=deliverAt]
    is pushed to [msgsToDeliverNow] and erased from [queue], in order.
    Returns [(msgsToDeliverNow, queue)]. *)
Fixpoint drain (currentTime : Z) (q : list Message) : list Message * list Message :=
  match q with
  | [] => ([], [])
  | m :: rest =>
      let (b, r) := drain currentTime rest in
      if (deliverAt m =? 0) || (deliverAt m <=? currentTime)
      then (m :: b, r) else (b, m :: r)
  end.

(** [if(m.deliverAt==0.0) m.deliverAt=VoIPController::GetCurrentTime();] *)
Definition stamp (m : Message) (t : Z) : Message :=
  if deliverAt m =? 0 then with_deliverAt t m else m.

(** Number of earlier invocations of callback [f]. *)
Definition count_calls (f : nat) (l : list Message) : nat :=
  length (filter (fun m => match func m with
                           | Some g => Nat.eqb g f
                           | None => false
                           end) l).

(** The wait of step 1: [waitTimeout>0.0] ([DBL_MAX] when the queue is empty). *)
Definition should_wait (st : State) : bool :=
  match queue st with
  | [] => true
  | q0 :: _ => 0 <? deliverAt q0 - now st
  end.

Section Run.

Variable body : nat -> nat -> list op.

(** [if(m.func!=nullptr){ m.func(); }] *)
Definition invoke (m : Message) (st : State) : State :=
  match func m with
  | None => st
  | Some f => run_ops (body f (count_calls f (log st))) (set_log (log st ++ [m]) st)
  end.

(** One iteration of [for(Message& m:msgsToDeliverNow)]. *)
Definition deliver_one (m : Message) (st : State) : State :=
  let st1 := set_cancelCurrent false st in
  let m1 := stamp m (now st1) in
  let st2 := invoke m1 st1 in
  if negb (cancelCurrent st2) && (0 <? interval m1)
  then set_queue (InsertMessageInternal
                    (with_deliverAt (deliverAt m1 + interval m1) m1)
                    (queue st2)) st2
  else st2.

Fixpoint deliver (batch : list Message) (st : State) : State :=
  match batch with
  | [] => st
  | m :: rest => deliver rest (deliver_one m st)
  end.

(** Steps 2-5 of one loop iteration, after the (possibly skipped) wait.
    The boolean is [false] when the loop is left ([break]). *)
Definition post_wait (st : State) : State * bool :=
  if negb (running st) then (st, false)
  else
    let (batch, rest) := drain (now st) (queue st) in
    let st1 := set_queue rest st in
    if hardStopped st1 then (st1, false)
    else (deliver batch st1, true).

End Run.

Inductive phase := AtHead | Waiting | Exited.

Definition config : Type := (phase * State)%type.

(** Events: a step of the worker ([ESched]: leave the loop head, or wake
    up from the wait), a call by another thread, or time passing. *)
Inductive event :=
| ESched
| EPost (f : option nat) (delay interval : Z)
| ECancel (x : N)
| EStop
| EHardStop
| ETick (dt : N).

(** A call made by another thread: it needs [queueMutex], which the
    worker holds except while it waits and after it has left the loop. *)
Definition external_call (p : phase) (st' : State) : option config :=
  match p with
  | AtHead => None
  | _ => Some (p, st')
  end.

Definition after_wait (body : nat -> nat -> list op) (st : State) : config :=
  let (st', cont) := post_wait body st in
  (if cont then AtHead else Exited, st').

Definition step (body : nat -> nat -> list op) (e : event) (c : config) : option config :=
  let (p, st) := c in
  match e with
  | ESched =>
      match p with
      | AtHead =>
          if negb (running st) then Some (Exited, st)
          else if should_wait st then Some (Waiting, st)
          else Some (after_wait body st)
      | Waiting => Some (after_wait body st)
      | Exited => None
      end
  | EPost f d i => external_call p (fst (Post f d i st))
  | ECancel x => external_call p (Cancel x st)
  | EStop => external_call p (Stop st)
  | EHardStop => external_call p (HardStop st)
  | ETick dt => Some (p, set_now (now st + Z.of_N dt) st)
  end.

Fixpoint run (body : nat -> nat -> list op) (evs : list event) (c : config) : option config :=
  match evs with
  | [] => Some c
  | e :: rest =>
      match step body e c with
      | None => None
      | Some c' => run body rest c'
      end
  end.

(** The object as constructed: [running] set, nothing queued, clock at 0;
    [first_id] is the initial value of [lastMessageID]. *)
Definition init_state (first_id : N) : State :=
  mkState true false [] first_id false 0 [].

(** ** Concrete scenarios *)

(** Callback 0 posts callback 1 with a delay of 5 ticks, lets 1 tick
    pass, posts callback 2 for immediate delivery, then runs for 9 more
    ticks.  Other callbacks do nothing. *)
Definition body_late_post (f k : nat) : list op :=
  match f with
  | O => [OPost (Some 1%nat) 5 0; OTick 1; OPost (Some 2%nat) 0 0; OTick 9]
  | _ => []
  end.

(** The worker starts, another thread posts callback 0 for immediate
    delivery, the worker runs two cycles. *)
Definition late_post_events : list event :=
  [ESched; EPost (Some 0%nat) 0 0; ESched; ESched].

(** Callback 0 calls [CancelSelf()] in its third invocation. *)
Definition body_cancel_third (f k : nat) : list op :=
  match f with
  | O => if Nat.eqb k 2 then [OCancelSelf] else []
  | _ => []
  end.

(** Callback 0 calls [Cancel(0)], its own id when it is the first task
    posted on an object whose counter starts at 0. *)
Definition body_cancel_own_id (f k : nat) : list op :=
  match f with
  | O => [OCancel 0%N]
  | _ => []
  end.

(** Another thread posts callback 0 with interval 10; the worker wakes
    each time it is due. *)
Definition repeat_events : list event :=
  [ESched; EPost (Some 0%nat) 0 10; ESched; ESched; ETick 10; ESched; ESched;
   ETick 10; ESched; ESched].

(** [n] consecutive [Post(nullptr, 1, 0)] calls. *)
Fixpoint repeat_post (n : nat) (st : State) : State :=
  match n with
  | O => st
  | S n' => repeat_post n' (fst (Post None 1 0 st))
  end.

(** Ascending order of the queue by [deliverAt]. *)
Definition le_d (a b : Message) : Prop := deliverAt a <= deliverAt b.
Definition sortedq (q : list Message) : Prop := StronglySorted le_d q.

(** The test of the drain loop. *)
Definition due (currentTime : Z) (m : Message) : bool :=
  (deliverAt m =? 0) || (deliverAt m <=? currentTime).

Definition has_func (m : Message) : bool :=
  match func m with Some _ => true | None => false end.

(** The configuration reached by a run (the start one if it blocks). *)
Definition run_config (body : nat -> nat -> list op) (evs : list event) (c : config) : config :=
  match run body evs c with
  | Some c' => c'
  | None => c
  end.

(** A repeating task (interval 10) posted for immediate delivery, as it
    is in the queue. *)
Definition msg_sentinel : Message := mkMessage 0 0 10 (Some 0%nat).

(** A repeating task due at time 20. *)
Definition msg_at20 : Message := mkMessage 0 20 10 (Some 0%nat).

(** A running object at time 7, nothing queued, counter at 1. *)
Definition st_at7 : State := mkState true false [] 1 false 7 [].

(** A running object at time 20 whose callback 0 has run twice. *)
Definition st_after_two : State :=
  mkState true false [] 1 false 20 [msg_sentinel; msg_at20].

(** A hard-stopped object whose [running] is still set, with a due task. *)
Definition st_hard : State := mkState true true [msg_at20] 1 false 20 [].

(** Callbacks that make no scheduler call. *)
Definition body_idle (f k : nat) : list op := [].

(** Another thread posts callback 0 (delay 10, interval 10), then
    callback 1 (delay 20, one-shot); the worker wakes at 10 and at 20. *)
Definition tie_events : list event :=
  [ESched; EPost (Some 0%nat) 10 10; EPost (Some 1%nat) 20 0; ETick 10; ESched; ESched;
   ETick 10; ESched].

(** ** Insertion order: a ghost instrumentation of the worker

    Every task put into the queue (by [Post], or by the reinsertion of a
    repeating task in [Run]) is paired with a ghost tag, the number of
    insertions made before it.  The functions below are those above,
    run on a state that carries, next to the object's [State], the
    tagged queue [tq] (updated by the same loops as [queue]), the next
    tag [ntag], and [tlog]: every invoked task as it was queued, with its
    tag. *)
Definition tmsg : Type := (nat * Message)%type.

Fixpoint t_insert_after_loop (m : tmsg) (q : list tmsg) : list tmsg :=
  match q with
  | [] => []
  | x :: rest =>
      match rest with
      | [] => [x; m]
      | y :: _ =>
          if (deliverAt (snd m) <? deliverAt (snd y)) && (deliverAt (snd x) <=? deliverAt (snd m))
          then x :: m :: rest
          else x :: t_insert_after_loop m rest
      end
  end.

Definition t_InsertMessageInternal (m : tmsg) (q : list tmsg) : list tmsg :=
  match q with
  | [] => [m]
  | q0 :: _ =>
      if deliverAt (snd m) <? deliverAt (snd q0) then m :: q
      else t_insert_after_loop m q
  end.

Fixpoint t_cancel_loop (x : N) (q : list tmsg) : list tmsg :=
  match q with
  | [] => []
  | m :: rest =>
      if (id (snd m) =? x)%N then t_cancel_loop x rest else m :: t_cancel_loop x rest
  end.

Fixpoint t_drain (currentTime : Z) (q : list tmsg) : list tmsg * list tmsg :=
  match q with
  | [] => ([], [])
  | m :: rest =>
      let (b, r) := t_drain currentTime rest in
      if due currentTime (snd m) then (m :: b, r) else (b, m :: r)
  end.

Record TState := mkTState {
  tst : State;
  tq : list tmsg;
  ntag : nat;
  tlog : list tmsg
}.

Definition t_exec_op (o : op) (x : TState) : TState :=
  let st := tst x in
  match o with
  | OPost f d i =>
      mkTState (fst (Post f d i st))
        (t_InsertMessageInternal
           (ntag x, mkMessage (lastMessageID st) (if d =? 0 then 0 else now st + d) i f)
           (tq x))
        (S (ntag x)) (tlog x)
  | OCancel y => mkTState (Cancel y st) (t_cancel_loop y (tq x)) (ntag x) (tlog x)
  | _ => mkTState (exec_op o st) (tq x) (ntag x) (tlog x)
  end.

Fixpoint t_run_ops (ops : list op) (x : TState) : TState :=
  match ops with
  | [] => x
  | o :: os => t_run_ops os (t_exec_op o x)
  end.

Section TaggedRun.

Variable body : nat -> nat -> list op.

(** [invoke] of the stamped task [m], queued as [tm]. *)
Definition t_invoke (tm : tmsg) (m : Message) (x : TState) : TState :=
  let st := tst x in
  match func m with
  | None => x
  | Some f =>
      t_run_ops (body f (count_calls f (log st)))
        (mkTState (set_log (log st ++ [m]) st) (tq x) (ntag x) (tlog x ++ [tm]))
  end.

Definition t_deliver_one (tm : tmsg) (x : TState) : TState :=
  let st1 := set_cancelCurrent false (tst x) in
  let m1 := stamp (snd tm) (now st1) in
  let x2 := t_invoke tm m1 (mkTState st1 (tq x) (ntag x) (tlog x)) in
  let st2 := tst x2 in
  if negb (cancelCurrent st2) && (0 <? interval m1)
  then
    let next := with_deliverAt (deliverAt m1 + interval m1) m1 in
    mkTState (set_queue (InsertMessageInternal next (queue st2)) st2)
             (t_InsertMessageInternal (ntag x2, next) (tq x2))
             (S (ntag x2)) (tlog x2)
  else x2.

Fixpoint t_deliver (batch : list tmsg) (x : TState) : TState :=
  match batch with
  | [] => x
  | m :: rest => t_deliver rest (t_deliver_one m x)
  end.

Definition t_post_wait (x : TState) : TState * bool :=
  let st := tst x in
  if negb (running st) then (x, false)
  else
    let (batch, rest) := t_drain (now st) (tq x) in
    let x1 := mkTState (set_queue (snd (drain (now st) (queue st))) st) rest (ntag x) (tlog x) in
    if hardStopped (tst x1) then (x1, false)
    else (t_deliver batch x1, true).

End TaggedRun.

Definition t_after_wait (body : nat -> nat -> list op) (x : TState) : phase * TState :=
  let (x', cont) := t_post_wait body x in
  (if cont then AtHead else Exited, x').

Definition t_external_call (p : phase) (x' : TState) : option (phase * TState) :=
  match p with
  | AtHead => None
  | _ => Some (p, x')
  end.

Definition t_step (body : nat -> nat -> list op) (e : event) (c : phase * TState)
  : option (phase * TState) :=
  let (p, x) := c in
  let st := tst x in
  match e with
  | ESched =>
      match p with
      | AtHead =>
          if negb (running st) then Some (Exited, x)
          else if should_wait st then Some (Waiting, x)
          else Some (t_after_wait body x)
      | Waiting => Some (t_after_wait body x)
      | Exited => None
      end
  | EPost f d i => t_external_call p (t_exec_op (OPost f d i) x)
  | ECancel y => t_external_call p (t_exec_op (OCancel y) x)
  | EStop => t_external_call p (mkTState (Stop st) [] (ntag x) (tlog x))
  | EHardStop => t_external_call p (mkTState (HardStop st) [] (ntag x) (tlog x))
  | ETick dt => Some (p, mkTState (set_now (now st + Z.of_N dt) st) (tq x) (ntag x) (tlog x))
  end.

Fixpoint t_run (body : nat -> nat -> list op) (evs : list event) (c : phase * TState)
  : option (phase * TState) :=
  match evs with
  | [] => Some c
  | e :: rest =>
      match t_step body e c with
      | None => None
      | Some c' => t_run body rest c'
      end
  end.

Definition t_init (first_id : N) : TState := mkTState (init_state first_id) [] 0 [].

(** The tagged queue is the queue with tags. *)
Definition t_sync (x : TState) : Prop := map snd (tq x) = queue (tst x).

(** Ordered by [deliverAt], equal ones by tag. *)
Definition lex_before (a b : tmsg) : Prop :=
  deliverAt (snd a) < deliverAt (snd b) \/
  (deliverAt (snd a) = deliverAt (snd b) /\ (fst a < fst b)%nat).

(** Of two tasks with the same [deliverAt], the first has the smaller tag. *)
Definition tie_before (a b : tmsg) : Prop :=
  deliverAt (snd a) = deliverAt (snd b) -> (fst a < fst b)%nat.

(** The log entry [e] is the invocation of the queued task [tm]. *)
Definition tlink (tm : tmsg) (e : Message) : Prop :=
  id e = id (snd tm) /\ func e = func (snd tm) /\
  (deliverAt (snd tm) <> 0 -> deliverAt e = deliverAt (snd tm)).

(** What stays true of the tags during a delivery cycle, with [b] the
    part of the batch not delivered yet. *)
Definition tinv (b q : list tmsg) (n : nat) (tl : list tmsg) : Prop :=
  StronglySorted lex_before q /\
  Forall (fun a => (fst a < n)%nat) (q ++ tl ++ b) /\
  (forall a c, In a (tl ++ b) -> In c q -> tie_before a c) /\
  StronglySorted tie_before (tl ++ b).

(** The number of invocations [c] of a callback that calls [CancelSelf]
    in its third invocation, and the number [n] of its tasks queued or
    waiting in the batch. *)
Definition cancel_third_inv (c n : nat) : Prop :=
  (c <= 3 /\ n <= 1 /\ (c = 3 -> n = 0))%nat.

(** The first task posted, a repeating one (interval 10) for immediate
    delivery, on an object whose counter starts at 0. *)
Definition msg_first : Message := mkMessage 0 0 10 (Some 0%nat).

(** The worker starts and waits; another thread posts [msg_first], then
    [n + 1] tasks [Post(nullptr, 1, 0)].  When [n = 2^32 - 1] the counter
    has gone once round its values and the last of them has id [0]. *)
Definition wrap_events (n : nat) : list event :=
  [ESched; EPost (Some 0%nat) 0 10] ++ repeat (EPost None 1 0) n ++ [EPost None 1 0].

(** ** [audio/AudioIOCallback.cpp]: [AudioInputCallback], [AudioOutputCallback]

    The two classes have the same start/stop code; [cb_active] is
    [recording] for the input and [playing] for the output.  The worker
    [Thread] is external: [thread_starts] and [thread_joins] count the
    calls to [thread->Start()] and [thread->Join()].  Between the
    constructor and the destructor [thread] is never null. *)
Record AudioCallbackState := mkAudioCallbackState {
  cb_running : bool;
  cb_active : bool;
  thread_starts : nat;
  thread_joins : nat
}.

(** The constructors: [running = false; recording/playing = false]. *)
Definition AudioCallback_new : AudioCallbackState :=
  mkAudioCallbackState false false 0 0.

(** [AudioInputCallback::Start]:
    [if(!running){ running=true; thread->Start(); } recording=true;] *)
Definition AudioInputCallback_Start (s : AudioCallbackState) : AudioCallbackState :=
  let s1 := if negb (cb_running s)
            then mkAudioCallbackState true (cb_active s) (S (thread_starts s)) (thread_joins s)
            else s in
  mkAudioCallbackState (cb_running s1) true (thread_starts s1) (thread_joins s1).

(** [AudioInputCallback::Stop]:
    [if(!running) return; recording=false; running=false; if(thread) thread->Join();] *)
Definition AudioInputCallback_Stop (s : AudioCallbackState) : AudioCallbackState :=
  if negb (cb_running s) then s
  else mkAudioCallbackState false false (thread_starts s) (S (thread_joins s)).

(** [AudioOutputCallback::Start], same code with [playing]. *)
Definition AudioOutputCallback_Start (s : AudioCallbackState) : AudioCallbackState :=
  let s1 := if negb (cb_running s)
            then mkAudioCallbackState true (cb_active s) (S (thread_starts s)) (thread_joins s)
            else s in
  mkAudioCallbackState (cb_running s1) true (thread_starts s1) (thread_joins s1).

(** [AudioOutputCallback::Stop], same code with [playing]. *)
Definition AudioOutputCallback_Stop (s : AudioCallbackState) : AudioCallbackState :=
  if negb (cb_running s) then s
  else mkAudioCallbackState false false (thread_starts s) (S (thread_joins s)).

(** [AudioOutputCallback::IsPlaying] *)
Definition IsPlaying (s : AudioCallbackState) : bool := cb_active s.

(** Calls made on an input or an output callback object. *)
Inductive audio_call := AStart | AStop.

Definition input_call (c : audio_call) : AudioCallbackState -> AudioCallbackState :=
  match c with AStart => AudioInputCallback_Start | AStop => AudioInputCallback_Stop end.

Definition output_call (c : audio_call) : AudioCallbackState -> AudioCallbackState :=
  match c with AStart => AudioOutputCallback_Start | AStop => AudioOutputCallback_Stop end.

(** No queued task runs callback [f]. *)
Definition no_task_of (f : nat) (q : list Message) : Prop :=
  Forall (fun m => func m <> Some f) q.

(** Whether a scheduler call or an event submits callback [f]. *)
Definition op_posts (f : nat) (o : op) : bool :=
  match o with
  | OPost (Some g) _ _ => Nat.eqb g f
  | _ => false
  end.

Definition event_posts (f : nat) (e : event) : bool :=
  match e with
  | EPost (Some g) _ _ => Nat.eqb g f
  | _ => false
  end.

(** ** Generic lemmas *)

Lemma sortedq_middle : forall l1 m l2,
  sortedq (l1 ++ l2) ->
  Forall (fun x => deliverAt x <= deliverAt m) l1 ->
  Forall (fun x => deliverAt m < deliverAt x) l2 ->
  sortedq (l1 ++ m :: l2).
Proof.
  unfold sortedq.
  induction l1 as [|a l1 IH]; simpl; intros m l2 Hs H1 H2.
  - constructor; [exact Hs|].
    eapply Forall_impl; [|exact H2]. intros x Hx; unfold le_d; cbv beta in *; lia.
  - inversion Hs as [|? ? Hs' Ha]; subst. inversion H1 as [|? ? Ham H1']; subst.
    constructor; [apply IH; assumption|].
    apply Forall_app in Ha as [Ha1 Ha2].
    apply Forall_app; split; [exact Ha1|]. constructor; [exact Ham|exact Ha2].
Qed.

Lemma insert_after_loop_cons2 : forall m x y r,
  insert_after_loop m (x :: y :: r) =
  if (deliverAt m <? deliverAt y) && (deliverAt x <=? deliverAt m)
  then x :: m :: y :: r else x :: insert_after_loop m (y :: r).
Proof. reflexivity. Qed.

Lemma insert_after_loop_split : forall rest x m,
  sortedq (x :: rest) -> deliverAt x <= deliverAt m ->
  exists l1 l2, x :: rest = l1 ++ l2 /\
    insert_after_loop m (x :: rest) = l1 ++ m :: l2 /\
    Forall (fun y => deliverAt y <= deliverAt m) l1 /\
    Forall (fun y => deliverAt m < deliverAt y) l2.
Proof.
  induction rest as [|y rest IH]; intros x m Hs Hx.
  - exists [x], []. split; [reflexivity|]. split; [reflexivity|].
    split; constructor; auto.
  - rewrite insert_after_loop_cons2.
    destruct (deliverAt m <? deliverAt y) eqn:Ey; cbn [andb].
    + assert (Hx' : (deliverAt x <=? deliverAt m) = true) by (apply Z.leb_le; lia).
      rewrite Hx'. exists [x], (y :: rest).
      split; [reflexivity|]. split; [reflexivity|]. split; [constructor; auto|].
      apply Z.ltb_lt in Ey.
      inversion Hs as [|? ? Hs' _]; subst.
      inversion Hs' as [|? ? _ Hy]; subst.
      constructor; [exact Ey|].
      eapply Forall_impl; [|exact Hy]. unfold le_d; intros; lia.
    + apply Z.ltb_ge in Ey.
      inversion Hs as [|? ? Hs' _]; subst.
      destruct (IH y m Hs' Ey) as (l1 & l2 & Eq & Ei & F1 & F2).
      exists (x :: l1), l2. rewrite Ei, Eq.
      split; [reflexivity|]. split; [reflexivity|]. split; [constructor; auto|exact F2].
Qed.

(** Where [InsertMessageInternal] puts [m] in a sorted queue: after all
    tasks with equal-or-earlier [deliverAt], before all later ones. *)
Lemma insert_split : forall m q, sortedq q ->
  exists l1 l2, q = l1 ++ l2 /\
    InsertMessageInternal m q = l1 ++ m :: l2 /\
    Forall (fun y => deliverAt y <= deliverAt m) l1 /\
    Forall (fun y => deliverAt m < deliverAt y) l2.
Proof.
  intros m [|q0 r] Hs.
  - exists [], []. split; [reflexivity|]. split; [reflexivity|]. split; constructor.
  - unfold InsertMessageInternal.
    destruct (deliverAt m <? deliverAt q0) eqn:E.
    + apply Z.ltb_lt in E. exists [], (q0 :: r).
      split; [reflexivity|]. split; [reflexivity|]. split; [constructor|].
      inversion Hs as [|? ? _ Hq]; subst.
      constructor; [exact E|].
      eapply Forall_impl; [|exact Hq]. unfold le_d; intros; lia.
    + apply Z.ltb_ge in E. apply insert_after_loop_split; assumption.
Qed.

Lemma insert_sorted : forall m q, sortedq q -> sortedq (InsertMessageInternal m q).
Proof.
  intros m q Hs.
  destruct (insert_split m q Hs) as (l1 & l2 & Eq & Ei & F1 & F2).
  rewrite Ei. subst q. apply sortedq_middle; assumption.
Qed.

Lemma insert_In : forall m q y,
  In y (InsertMessageInternal m q) -> y = m \/ In y q.
Proof.
  intros m [|q0 r] y; unfold InsertMessageInternal.
  - simpl; intuition.
  - destruct (deliverAt m <? deliverAt q0).
    + simpl; intuition.
    + revert q0. induction r as [|z r IH]; intros q0 H.
      * simpl in H. simpl. intuition.
      * simpl in H.
        destruct ((deliverAt m <? deliverAt z) && (deliverAt q0 <=? deliverAt m)).
        -- simpl in H |- *. intuition.
        -- simpl in H. destruct H as [H|H]; [right; left; exact H|].
           destruct (IH z H) as [H'|H']; [left; exact H'|right; right; exact H'].
Qed.

Lemma cancel_loop_filter : forall x q,
  cancel_loop x q = filter (fun m => negb (id m =? x)%N) q.
Proof.
  intros x q; induction q as [|m q IH]; simpl; [reflexivity|].
  destruct (id m =? x)%N; simpl; rewrite IH; reflexivity.
Qed.

Lemma drain_filter : forall t q,
  drain t q = (filter (due t) q, filter (fun m => negb (due t m)) q).
Proof.
  intros t q; induction q as [|m q IH]; simpl; [reflexivity|].
  rewrite IH. change ((deliverAt m =? 0) || (deliverAt m <=? t)) with (due t m).
  destruct (due t m); reflexivity.
Qed.

Lemma sortedq_filter : forall p q, sortedq q -> sortedq (filter p q).
Proof.
  unfold sortedq; intros p q Hs; induction Hs as [|a l Hs IH Ha]; simpl; [constructor|].
  destruct (p a); [|exact IH].
  constructor; [exact IH|].
  apply Forall_forall; intros y Hy. apply filter_In in Hy as [Hy _].
  rewrite Forall_forall in Ha. apply Ha, Hy.
Qed.

(** Facts about the scheduler calls made by callbacks. *)
Lemma exec_op_frame : forall o st,
  running (exec_op o st) = running st /\
  hardStopped (exec_op o st) = hardStopped st /\
  log (exec_op o st) = log st /\
  (o <> OCancelSelf -> cancelCurrent (exec_op o st) = cancelCurrent st) /\
  now st <= now (exec_op o st).
Proof.
  intros [f d i|x| |dt] st; simpl; repeat split; try reflexivity; try lia;
  intros H; try reflexivity; congruence.
Qed.

Lemma run_ops_frame : forall ops st,
  running (run_ops ops st) = running st /\
  hardStopped (run_ops ops st) = hardStopped st /\
  log (run_ops ops st) = log st /\
  (~ In OCancelSelf ops -> cancelCurrent (run_ops ops st) = cancelCurrent st) /\
  now st <= now (run_ops ops st).
Proof.
  induction ops as [|o ops IH]; intros st; simpl; [repeat split; auto; lia|].
  destruct (exec_op_frame o st) as (E1 & E2 & E3 & E4 & E5).
  destruct (IH (exec_op o st)) as (F1 & F2 & F3 & F4 & F5).
  repeat split; try congruence; try lia.
  intros Hn. rewrite F4 by tauto. apply E4. intros ->. apply Hn; left; reflexivity.
Qed.

Lemma exec_op_sorted : forall o st, sortedq (queue st) -> sortedq (queue (exec_op o st)).
Proof.
  intros [f d i|x| |dt] st Hs; simpl; try exact Hs.
  - apply insert_sorted, Hs.
  - rewrite cancel_loop_filter. apply sortedq_filter, Hs.
Qed.

Lemma run_ops_sorted : forall ops st, sortedq (queue st) -> sortedq (queue (run_ops ops st)).
Proof.
  induction ops as [|o ops IH]; intros st Hs; simpl; [exact Hs|].
  apply IH, exec_op_sorted, Hs.
Qed.

Section RunFacts.

Variable body : nat -> nat -> list op.

Lemma invoke_frame : forall m st,
  running (invoke body m st) = running st /\
  hardStopped (invoke body m st) = hardStopped st /\
  (sortedq (queue st) -> sortedq (queue (invoke body m st))).
Proof.
  intros m st; unfold invoke; destruct (func m) as [f|]; [|auto].
  destruct (run_ops_frame (body f (count_calls f (log st))) (set_log (log st ++ [m]) st))
    as (E1 & E2 & _).
  rewrite E1, E2. repeat split; try reflexivity.
  intros Hs. apply run_ops_sorted. exact Hs.
Qed.

Lemma deliver_one_frame : forall m st,
  running (deliver_one body m st) = running st /\
  hardStopped (deliver_one body m st) = hardStopped st /\
  (sortedq (queue st) -> sortedq (queue (deliver_one body m st))).
Proof.
  intros m st; unfold deliver_one.
  destruct (invoke_frame (stamp m (now (set_cancelCurrent false st)))
                         (set_cancelCurrent false st)) as (E1 & E2 & E3).
  set (st2 := invoke body _ _) in *.
  simpl in E1, E2, E3.
  destruct (negb (cancelCurrent st2) && _); simpl.
  - split; [exact E1|]. split; [exact E2|].
    intros Hs. apply insert_sorted, E3, Hs.
  - split; [exact E1|]. split; [exact E2|]. exact E3.
Qed.

Lemma deliver_frame : forall b st,
  running (deliver body b st) = running st /\
  hardStopped (deliver body b st) = hardStopped st /\
  (sortedq (queue st) -> sortedq (queue (deliver body b st))).
Proof.
  induction b as [|m b IH]; intros st; simpl; [auto|].
  destruct (deliver_one_frame m st) as (E1 & E2 & E3).
  destruct (IH (deliver_one body m st)) as (F1 & F2 & F3).
  rewrite F1, F2, E1, E2. repeat split; auto.
Qed.

Lemma post_wait_sorted : forall st,
  sortedq (queue st) -> sortedq (queue (fst (post_wait body st))).
Proof.
  intros st Hs; unfold post_wait.
  destruct (negb (running st)); [exact Hs|].
  rewrite drain_filter. simpl.
  destruct (hardStopped st); simpl.
  - apply sortedq_filter, Hs.
  - apply deliver_frame. simpl. apply sortedq_filter, Hs.
Qed.

Lemma step_sorted : forall e c c',
  step body e c = Some c' -> sortedq (queue (snd c)) -> sortedq (queue (snd c')).
Proof.
  intros e [p st] c' Hst Hs; simpl in Hs.
  assert (Haw : sortedq (queue (snd (after_wait body st)))).
  { unfold after_wait. pose proof (post_wait_sorted st Hs) as H.
    destruct (post_wait body st) as [st' k]; exact H. }
  destruct e; simpl in Hst.
  - destruct p; [| |discriminate].
    + destruct (negb (running st)); [injection Hst as <-; exact Hs|].
      destruct (should_wait st); injection Hst as <-; [exact Hs|exact Haw].
    + injection Hst as <-. exact Haw.
  - destruct p; simpl in Hst; try discriminate; injection Hst as <-;
      apply insert_sorted, Hs.
  - destruct p; simpl in Hst; try discriminate; injection Hst as <-;
      simpl; rewrite cancel_loop_filter; apply sortedq_filter, Hs.
  - destruct p; simpl in Hst; try discriminate; injection Hst as <-; constructor.
  - destruct p; simpl in Hst; try discriminate; injection Hst as <-; constructor.
  - injection Hst as <-. exact Hs.
Qed.

Lemma run_sorted : forall evs c c',
  run body evs c = Some c' -> sortedq (queue (snd c)) -> sortedq (queue (snd c')).
Proof.
  induction evs as [|e evs IH]; intros c c' Hr Hs; simpl in Hr.
  - injection Hr as <-. exact Hs.
  - destruct (step body e c) as [c1|] eqn:E; [|discriminate].
    apply (IH c1 c' Hr). apply (step_sorted e c c1 E Hs).
Qed.

End RunFacts.

Lemma step_hardstopped_log : forall body e c c',
  step body e c = Some c' -> hardStopped (snd c) = true ->
  hardStopped (snd c') = true /\ log (snd c') = log (snd c).
Proof.
  intros body e [p st] c' Hst Hh; simpl in Hh |- *.
  assert (Haw : hardStopped (snd (after_wait body st)) = true /\
                log (snd (after_wait body st)) = log st).
  { unfold after_wait, post_wait.
    destruct (negb (running st)); [simpl; auto|].
    destruct (drain (now st) (queue st)) as [b r]. simpl. rewrite Hh. simpl. auto. }
  destruct e; simpl in Hst.
  - destruct p; [| |discriminate].
    + destruct (negb (running st)); [injection Hst as <-; simpl; auto|].
      destruct (should_wait st); injection Hst as <-; [simpl; auto|exact Haw].
    + injection Hst as <-. exact Haw.
  - destruct p; simpl in Hst; try discriminate; injection Hst as <-; simpl; auto.
  - destruct p; simpl in Hst; try discriminate; injection Hst as <-; simpl; auto.
  - destruct p; simpl in Hst; try discriminate; injection Hst as <-; simpl; auto.
  - destruct p; simpl in Hst; try discriminate; injection Hst as <-; simpl; auto.
  - injection Hst as <-. simpl; auto.
Qed.

Lemma run_hardstopped_log : forall body evs c c',
  run body evs c = Some c' -> hardStopped (snd c) = true ->
  hardStopped (snd c') = true /\ log (snd c') = log (snd c).
Proof.
  intros body evs; induction evs as [|e evs IH]; intros c c' Hr Hh; simpl in Hr.
  - injection Hr as <-. auto.
  - destruct (step body e c) as [c1|] eqn:E; [|discriminate].
    destruct (step_hardstopped_log body e c c1 E Hh) as [H1 L1].
    destruct (IH c1 c' Hr H1) as [H2 L2]. split; congruence.
Qed.

(** ** Claims *)

(** C2: the queue is always sorted ascending by [deliverAt]: every state
    reached by the worker loop and the calls of other threads from the
    initial state has a sorted queue; and [InsertMessageInternal] (used by
    [Post] and by the reinsertion of a repeating task) keeps a sorted queue
    sorted, placing the new task after all tasks with equal-or-earlier
    [deliverAt] and before the first one with a strictly later [deliverAt]. *)
Theorem C2_queue_sorted_insert_position :
  (forall body evs first_id c',
     run body evs (AtHead, init_state first_id) = Some c' ->
     sortedq (queue (snd c'))) /\
  (forall m q, sortedq q ->
     sortedq (InsertMessageInternal m q) /\
     exists l1 l2, q = l1 ++ l2 /\
       InsertMessageInternal m q = l1 ++ m :: l2 /\
       Forall (fun y => deliverAt y <= deliverAt m) l1 /\
       Forall (fun y => deliverAt m < deliverAt y) l2).
Proof.
  split.
  - intros body evs first_id c' Hr.
    apply (run_sorted body evs _ c' Hr). constructor.
  - intros m q Hs. split; [apply insert_sorted, Hs|apply insert_split, Hs].
Qed.

(** C4: [Cancel id] removes exactly the queued tasks carrying [id],
    leaves every other task in place and in order, changes nothing else,
    and is the identity when no queued task carries [id]. *)
Theorem C4_cancel_spec : forall x st,
  Cancel x st = set_queue (filter (fun m => negb (id m =? x)%N) (queue st)) st /\
  ~ In x (map id (queue (Cancel x st))) /\
  (forall m, In m (queue (Cancel x st)) <-> In m (queue st) /\ id m <> x) /\
  (~ In x (map id (queue st)) -> Cancel x st = st).
Proof.
  intros x st. unfold Cancel. rewrite cancel_loop_filter.
  split; [reflexivity|]. simpl.
  assert (Hin : forall m, In m (filter (fun m => negb (id m =? x)%N) (queue st)) <->
                          In m (queue st) /\ id m <> x).
  { intros m. rewrite filter_In, negb_true_iff, N.eqb_neq. tauto. }
  split; [|split; [exact Hin|]].
  - intros Hx. apply in_map_iff in Hx as (m & Em & Hm).
    apply Hin in Hm as [_ Hm]. contradiction.
  - intros Hx.
    assert (E : filter (fun m => negb (id m =? x)%N) (queue st) = queue st).
    { clear Hin. induction (queue st) as [|m q IH]; simpl; [reflexivity|].
      simpl in Hx. destruct (id m =? x)%N eqn:E.
      - apply N.eqb_eq in E. exfalso. apply Hx. left. exact E.
      - simpl. rewrite IH; [reflexivity|]. intros H; apply Hx; right; exact H. }
    rewrite E. destruct st; reflexivity.
Qed.

(** C9: [Stop] and [HardStop] are idempotent. *)
Theorem C9_stop_hardstop_idempotent : forall st,
  Stop (Stop st) = Stop st /\ HardStop (HardStop st) = HardStop st.
Proof. intros st; split; reflexivity. Qed.

(** C8: after [Stop] (and after [HardStop]) [running] is false and the
    queue is empty; the worker, whether it wakes from its wait or is at
    the loop head, leaves the loop without touching anything. *)
Theorem C8_stop_clears_and_loop_exits : forall body st,
  (running (Stop st) = false /\ queue (Stop st) = [] /\
   post_wait body (Stop st) = (Stop st, false) /\
   step body ESched (Waiting, Stop st) = Some (Exited, Stop st) /\
   step body ESched (AtHead, Stop st) = Some (Exited, Stop st)) /\
  (running (HardStop st) = false /\ queue (HardStop st) = [] /\
   post_wait body (HardStop st) = (HardStop st, false) /\
   step body ESched (Waiting, HardStop st) = Some (Exited, HardStop st) /\
   step body ESched (AtHead, HardStop st) = Some (Exited, HardStop st)).
Proof. intros body st; repeat split; reflexivity. Qed.

(** C7: once [hardStopped] is set, no callback runs again: a cycle that
    has drained its batch drops it and leaves the loop, and no sequence of
    worker steps and calls of other threads adds to the trace of invoked
    callbacks, in particular after [HardStop] has returned. *)
Theorem C7_hardstop_no_more_callbacks :
  (forall body st, hardStopped st = true -> running st = true ->
     post_wait body st = (set_queue (snd (drain (now st) (queue st))) st, false)) /\
  (forall body evs c c', hardStopped (snd c) = true ->
     run body evs c = Some c' -> log (snd c') = log (snd c)) /\
  (forall body evs p st c',
     run body evs (p, HardStop st) = Some c' -> log (snd c') = log st).
Proof.
  split; [|split].
  - intros body st Hh Hr. unfold post_wait. rewrite Hr. simpl.
    destruct (drain (now st) (queue st)) as [b r]. simpl. rewrite Hh. reflexivity.
  - intros body evs c c' Hh Hr. apply (run_hardstopped_log body evs c c' Hr Hh).
  - intros body evs p st c' Hr.
    apply (run_hardstopped_log body evs _ c' Hr). reflexivity.
Qed.

Lemma stamp_fields : forall m t,
  id (stamp m t) = id m /\ func (stamp m t) = func m /\
  interval (stamp m t) = interval m /\
  (deliverAt m <> 0 -> stamp m t = m).
Proof.
  intros m t; unfold stamp. destruct (deliverAt m =? 0) eqn:E; simpl.
  - apply Z.eqb_eq in E. repeat split; try reflexivity. intros H; contradiction.
  - repeat split; reflexivity.
Qed.

Lemma deliver_one_log : forall body m st,
  log (deliver_one body m st) =
  log st ++ (if has_func m then [stamp m (now st)] else []).
Proof.
  intros body m st. unfold deliver_one, invoke, has_func.
  destruct (stamp_fields m (now st)) as (_ & Ef & _).
  simpl. rewrite Ef.
  destruct (func m) as [f|].
  - destruct (run_ops_frame (body f (count_calls f (log st)))
       (set_log (log st ++ [stamp m (now st)]) (set_cancelCurrent false st)))
      as (_ & _ & L & _).
    destruct (negb _ && _); simpl; rewrite L; reflexivity.
  - destruct (negb _ && _); simpl; rewrite app_nil_r; reflexivity.
Qed.

Lemma deliver_log : forall body b st, exists E,
  log (deliver body b st) = log st ++ E /\
  Forall2 (fun m e => id e = id m /\ func e = func m /\
                      (deliverAt m <> 0 -> deliverAt e = deliverAt m))
          (filter has_func b) E.
Proof.
  intros body b; induction b as [|m b IH]; intros st; simpl.
  - exists []. rewrite app_nil_r. split; [reflexivity|constructor].
  - destruct (IH (deliver_one body m st)) as (E & HE & HF).
    rewrite deliver_one_log in HE.
    destruct (stamp_fields m (now st)) as (Ei & Ef & _ & Ed).
    destruct (has_func m).
    + exists (stamp m (now st) :: E). rewrite HE, <- app_assoc. split; [reflexivity|].
      constructor; [|exact HF]. split; [exact Ei|]. split; [exact Ef|].
      intros H. rewrite (Ed H). reflexivity.
    + exists E. rewrite HE, app_nil_r. split; [reflexivity|exact HF].
Qed.

(** *** The tagged run: it is the run, and its tags give insertion order *)

Lemma SS_app_iff : forall (A : Type) (R : A -> A -> Prop) l1 l2,
  StronglySorted R (l1 ++ l2) <->
  StronglySorted R l1 /\ StronglySorted R l2 /\ (forall a b, In a l1 -> In b l2 -> R a b).
Proof.
  intros A R l1 l2; induction l1 as [|x l1 IH]; simpl.
  - split; [intros H; split; [constructor|split; [exact H|intros a b []]]|].
    intros (_ & H & _); exact H.
  - split.
    + intros H. apply StronglySorted_inv in H as [H Hx].
      apply IH in H as (H1 & H2 & H3). rewrite Forall_forall in Hx.
      split; [constructor; [exact H1|]|].
      { apply Forall_forall; intros y Hy; apply Hx, in_or_app; left; exact Hy. }
      split; [exact H2|].
      intros a b [<-|Ha] Hb; [apply Hx, in_or_app; right; exact Hb|apply H3; assumption].
    + intros (H1 & H2 & H3). apply StronglySorted_inv in H1 as [H1 Hx].
      constructor.
      * apply IH. split; [exact H1|]. split; [exact H2|].
        intros a b Ha Hb. apply H3; [right|]; assumption.
      * apply Forall_forall. intros y Hy. apply in_app_or in Hy as [Hy|Hy].
        -- rewrite Forall_forall in Hx. apply Hx, Hy.
        -- apply H3; [left; reflexivity|exact Hy].
Qed.

Lemma SS_filter : forall (A : Type) (R : A -> A -> Prop) (p : A -> bool) l,
  StronglySorted R l -> StronglySorted R (filter p l).
Proof.
  intros A R p l Hs; induction Hs as [|a l Hs IH Ha]; simpl; [constructor|].
  destruct (p a); [|exact IH].
  constructor; [exact IH|].
  apply Forall_forall; intros y Hy. apply filter_In in Hy as [Hy _].
  rewrite Forall_forall in Ha. apply Ha, Hy.
Qed.

Lemma SS_impl : forall (A : Type) (R S : A -> A -> Prop),
  (forall a b, R a b -> S a b) -> forall l, StronglySorted R l -> StronglySorted S l.
Proof.
  intros A R S H l Hs; induction Hs as [|a l Hs IH Ha]; constructor; [exact IH|].
  eapply Forall_impl; [|exact Ha]. exact (H a).
Qed.

Lemma t_insert_after_loop_cons2 : forall m x y r,
  t_insert_after_loop m (x :: y :: r) =
  if (deliverAt (snd m) <? deliverAt (snd y)) && (deliverAt (snd x) <=? deliverAt (snd m))
  then x :: m :: y :: r else x :: t_insert_after_loop m (y :: r).
Proof. reflexivity. Qed.

Lemma t_insert_map : forall m q,
  map snd (t_InsertMessageInternal m q) = InsertMessageInternal (snd m) (map snd q).
Proof.
  intros m [|q0 r]; [reflexivity|].
  change (map snd (q0 :: r)) with (snd q0 :: map snd r).
  unfold t_InsertMessageInternal, InsertMessageInternal.
  destruct (deliverAt (snd m) <? deliverAt (snd q0)); [reflexivity|].
  revert q0. induction r as [|y r IH]; intros x; [reflexivity|].
  rewrite t_insert_after_loop_cons2. cbn [map]. rewrite insert_after_loop_cons2.
  destruct (_ && _); [reflexivity|]. cbn [map]. rewrite IH. reflexivity.
Qed.

Lemma t_cancel_filter : forall x q,
  t_cancel_loop x q = filter (fun p => negb (id (snd p) =? x)%N) q.
Proof.
  intros x q; induction q as [|m q IH]; simpl; [reflexivity|].
  destruct (id (snd m) =? x)%N; simpl; rewrite IH; reflexivity.
Qed.

Lemma t_cancel_map : forall x q, map snd (t_cancel_loop x q) = cancel_loop x (map snd q).
Proof.
  intros x q; induction q as [|m q IH]; simpl; [reflexivity|].
  destruct (id (snd m) =? x)%N; simpl; rewrite IH; reflexivity.
Qed.

Lemma t_drain_filter : forall t q,
  t_drain t q = (filter (fun p => due t (snd p)) q, filter (fun p => negb (due t (snd p))) q).
Proof.
  intros t q; induction q as [|m q IH]; simpl; [reflexivity|].
  rewrite IH. destruct (due t (snd m)); reflexivity.
Qed.

Lemma map_snd_filter : forall (p : Message -> bool) (q : list tmsg),
  map snd (filter (fun a => p (snd a)) q) = filter p (map snd q).
Proof.
  intros p q; induction q as [|a q IH]; simpl; [reflexivity|].
  destruct (p (snd a)); simpl; rewrite IH; reflexivity.
Qed.

Lemma t_drain_map : forall t q,
  drain t (map snd q) = (map snd (fst (t_drain t q)), map snd (snd (t_drain t q))).
Proof.
  intros t q. rewrite drain_filter, t_drain_filter. simpl.
  f_equal; symmetry; [apply (map_snd_filter (due t))|apply (map_snd_filter (fun m => negb (due t m)))].
Qed.

Lemma t_exec_op_tst : forall o x, tst (t_exec_op o x) = exec_op o (tst x).
Proof. intros o x; destruct o; reflexivity. Qed.

Lemma t_exec_op_sync : forall o x, t_sync x -> t_sync (t_exec_op o x).
Proof.
  unfold t_sync. intros [f d i|y| |dt] x H; simpl.
  - rewrite t_insert_map. simpl. rewrite H. reflexivity.
  - rewrite t_cancel_map, H. reflexivity.
  - exact H.
  - exact H.
Qed.

Lemma t_run_ops_tst : forall ops x,
  tst (t_run_ops ops x) = run_ops ops (tst x) /\ (t_sync x -> t_sync (t_run_ops ops x)).
Proof.
  induction ops as [|o ops IH]; intros x; simpl; [auto|].
  destruct (IH (t_exec_op o x)) as [E S]. rewrite E, t_exec_op_tst. split; [reflexivity|].
  intros H. apply S, t_exec_op_sync, H.
Qed.

Lemma t_insert_after_loop_split : forall rest x m,
  StronglySorted lex_before (x :: rest) -> deliverAt (snd x) <= deliverAt (snd m) ->
  exists l1 l2, x :: rest = l1 ++ l2 /\
    t_insert_after_loop m (x :: rest) = l1 ++ m :: l2 /\
    Forall (fun y => deliverAt (snd y) <= deliverAt (snd m)) l1 /\
    Forall (fun y => deliverAt (snd m) < deliverAt (snd y)) l2.
Proof.
  induction rest as [|y rest IH]; intros x m Hs Hx.
  - exists [x], []. split; [reflexivity|]. split; [reflexivity|]. split; constructor; auto.
  - rewrite t_insert_after_loop_cons2.
    destruct (deliverAt (snd m) <? deliverAt (snd y)) eqn:Ey; cbn [andb].
    + assert (Hx' : (deliverAt (snd x) <=? deliverAt (snd m)) = true) by (apply Z.leb_le; lia).
      rewrite Hx'. exists [x], (y :: rest).
      split; [reflexivity|]. split; [reflexivity|]. split; [constructor; auto|].
      apply Z.ltb_lt in Ey.
      apply StronglySorted_inv in Hs as [Hs' _].
      apply StronglySorted_inv in Hs' as [_ Hy].
      constructor; [exact Ey|].
      eapply Forall_impl; [|exact Hy]. intros z [Hz|[Hz _]]; lia.
    + apply Z.ltb_ge in Ey.
      apply StronglySorted_inv in Hs as [Hs' _].
      destruct (IH y m Hs' Ey) as (l1 & l2 & Eq & Ei & F1 & F2).
      exists (x :: l1), l2. rewrite Ei, Eq.
      split; [reflexivity|]. split; [reflexivity|]. split; [constructor; auto|exact F2].
Qed.

Lemma t_insert_split : forall m q, StronglySorted lex_before q ->
  exists l1 l2, q = l1 ++ l2 /\ t_InsertMessageInternal m q = l1 ++ m :: l2 /\
    Forall (fun y => deliverAt (snd y) <= deliverAt (snd m)) l1 /\
    Forall (fun y => deliverAt (snd m) < deliverAt (snd y)) l2.
Proof.
  intros m [|q0 r] Hs.
  - exists [], []. split; [reflexivity|]. split; [reflexivity|]. split; constructor.
  - unfold t_InsertMessageInternal.
    destruct (deliverAt (snd m) <? deliverAt (snd q0)) eqn:E.
    + apply Z.ltb_lt in E. exists [], (q0 :: r).
      split; [reflexivity|]. split; [reflexivity|]. split; [constructor|].
      apply StronglySorted_inv in Hs as [_ Hq].
      constructor; [exact E|].
      eapply Forall_impl; [|exact Hq]. intros z [Hz|[Hz _]]; lia.
    + apply Z.ltb_ge in E. apply t_insert_after_loop_split; assumption.
Qed.

(** Invariant of the tags. *)
Lemma tinv_insert : forall b q n tl m,
  tinv b q n tl -> tinv b (t_InsertMessageInternal (n, m) q) (S n) tl.
Proof.
  intros b q n tl m (H1 & H2 & H3 & H4).
  destruct (t_insert_split (n, m) q H1) as (l1 & l2 & Eq & Ei & F1 & F2).
  rewrite Ei. subst q.
  rewrite Forall_forall in H2.
  assert (Hn : forall a, In a (l1 ++ l2) -> (fst a < n)%nat).
  { intros a Ha. apply H2, in_or_app. left. exact Ha. }
  split; [|split; [|split; [|exact H4]]].
  - apply SS_app_iff in H1 as (S1 & S2 & S3). apply SS_app_iff.
    split; [exact S1|]. split.
    + constructor; [exact S2|]. eapply Forall_impl; [|exact F2]. intros z Hz. left. exact Hz.
    + intros a c Ha [<-|Hc].
      * rewrite Forall_forall in F1. specialize (F1 a Ha). cbn [snd] in F1.
        destruct (Z.lt_ge_cases (deliverAt (snd a)) (deliverAt m)) as [L|L];
          [left; exact L|right; split; [simpl; lia|apply Hn, in_or_app; left; exact Ha]].
      * apply S3; assumption.
  - apply Forall_forall. intros a Ha.
    rewrite !in_app_iff in Ha. simpl in Ha.
    destruct Ha as [[Ha|[<-|Ha]]|Ha]; [| simpl; lia | |];
      (assert (Hin : In a ((l1 ++ l2) ++ tl ++ b)) by (rewrite !in_app_iff; tauto));
      specialize (H2 a Hin); lia.
  - intros a c Ha Hc. apply in_elt_inv in Hc as [->|Hc].
    + intros _. simpl. apply H2, in_or_app. right. exact Ha.
    + apply H3; assumption.
Qed.

Lemma tinv_filter : forall b q n tl p,
  tinv b q n tl -> tinv b (filter p q) n tl.
Proof.
  intros b q n tl p (H1 & H2 & H3 & H4). split; [apply SS_filter, H1|].
  split; [|split; [|exact H4]].
  - rewrite Forall_forall in H2 |- *. intros a Ha. apply H2.
    apply in_app_or in Ha as [Ha|Ha]; apply in_or_app; [left|right; exact Ha].
    apply filter_In in Ha as [Ha _]; exact Ha.
  - intros a c Ha Hc. apply filter_In in Hc as [Hc _]. apply H3; assumption.
Qed.

Lemma tinv_pop : forall tm b q n tl, tinv (tm :: b) q n tl -> tinv b q n (tl ++ [tm]).
Proof. intros tm b q n tl H. unfold tinv. rewrite <- !app_assoc. exact H. Qed.

Lemma tinv_skip : forall tm b q n tl, tinv (tm :: b) q n tl -> tinv b q n tl.
Proof.
  intros tm b q n tl (H1 & H2 & H3 & H4). split; [exact H1|].
  split; [|split].
  - rewrite Forall_forall in H2 |- *. intros a Ha. apply H2.
    rewrite !in_app_iff in Ha |- *. simpl. tauto.
  - intros a c Ha Hc. apply H3; [|exact Hc]. rewrite in_app_iff in Ha |- *. simpl. tauto.
  - apply SS_app_iff in H4 as (S1 & S2 & S3). apply SS_app_iff.
    split; [exact S1|]. split; [apply StronglySorted_inv in S2 as [S2 _]; exact S2|].
    intros a c Ha Hc. apply S3; [exact Ha|right; exact Hc].
Qed.

Lemma tinv_drop_batch : forall b q n tl, tinv b q n tl -> tinv [] q n tl.
Proof.
  induction b as [|tm b IH]; intros q n tl H; [exact H|].
  apply IH, (tinv_skip tm), H.
Qed.

Lemma tinv_stop : forall q n tl, tinv [] q n tl -> tinv [] [] n tl.
Proof.
  intros q n tl (H1 & H2 & H3 & H4). split; [constructor|].
  split; [|split; [intros a c _ []|exact H4]].
  rewrite Forall_forall in H2 |- *. intros a Ha. apply H2, in_or_app. right. exact Ha.
Qed.

Lemma due_eq : forall t a c, deliverAt a = deliverAt c -> due t a = due t c.
Proof. intros t a c E. unfold due. rewrite E. reflexivity. Qed.

Lemma tinv_drain : forall t q n tl, tinv [] q n tl ->
  tinv (filter (fun p => due t (snd p)) q) (filter (fun p => negb (due t (snd p))) q) n tl.
Proof.
  intros t q n tl (H1 & H2 & H3 & H4). rewrite app_nil_r in H3, H4.
  split; [apply SS_filter, H1|].
  split; [|split].
  - rewrite Forall_forall in H2 |- *. intros a Ha. apply H2.
    rewrite !in_app_iff in Ha |- *. rewrite !filter_In in Ha. tauto.
  - intros a c Ha Hc. apply in_app_or in Ha as [Ha|Ha].
    + apply H3; [exact Ha|]. apply filter_In in Hc as [Hc _]; exact Hc.
    + apply filter_In in Ha as [_ Ha]. apply filter_In in Hc as [_ Hc].
      cbv beta in Ha, Hc. intros E. rewrite <- (due_eq t _ _ E), Ha in Hc. discriminate.
  - apply SS_app_iff. split; [exact H4|]. split.
    + apply (SS_impl _ lex_before); [|apply SS_filter, H1].
      intros a c [L|[E L]] E'; [lia|exact L].
    + intros a c Ha Hc. apply H3; [exact Ha|]. apply filter_In in Hc as [Hc _]; exact Hc.
Qed.

Lemma t_exec_op_inv : forall o x b,
  tinv b (tq x) (ntag x) (tlog x) -> Forall2 tlink (tlog x) (log (tst x)) ->
  tinv b (tq (t_exec_op o x)) (ntag (t_exec_op o x)) (tlog (t_exec_op o x)) /\
  Forall2 tlink (tlog (t_exec_op o x)) (log (tst (t_exec_op o x))).
Proof.
  intros [f d i|y| |dt] x b H L; simpl.
  - split; [apply tinv_insert, H|exact L].
  - split; [rewrite t_cancel_filter; apply tinv_filter, H|exact L].
  - split; [exact H|exact L].
  - split; [exact H|exact L].
Qed.

Lemma t_run_ops_inv : forall ops x b,
  tinv b (tq x) (ntag x) (tlog x) -> Forall2 tlink (tlog x) (log (tst x)) ->
  tinv b (tq (t_run_ops ops x)) (ntag (t_run_ops ops x)) (tlog (t_run_ops ops x)) /\
  Forall2 tlink (tlog (t_run_ops ops x)) (log (tst (t_run_ops ops x))).
Proof.
  induction ops as [|o ops IH]; intros x b H L; simpl; [auto|].
  destruct (t_exec_op_inv o x b H L) as [H' L']. apply IH; assumption.
Qed.

Lemma t_init_inv : forall first_id,
  tinv [] (tq (t_init first_id)) (ntag (t_init first_id)) (tlog (t_init first_id)) /\
  Forall2 tlink (tlog (t_init first_id)) (log (tst (t_init first_id))) /\
  t_sync (t_init first_id).
Proof.
  intros first_id. split; [|split; [constructor|reflexivity]].
  split; [constructor|]. split; [constructor|]. split; [intros a c _ []|constructor].
Qed.

Section TaggedFacts.

Variable body : nat -> nat -> list op.

Lemma t_invoke_tst : forall tm m x,
  tst (t_invoke body tm m x) = invoke body m (tst x) /\
  (t_sync x -> t_sync (t_invoke body tm m x)).
Proof.
  intros tm m x. unfold t_invoke, invoke. destruct (func m) as [f|]; [|auto].
  destruct (t_run_ops_tst (body f (count_calls f (log (tst x))))
              (mkTState (set_log (log (tst x) ++ [m]) (tst x)) (tq x) (ntag x) (tlog x ++ [tm])))
    as [E S].
  rewrite E. split; [reflexivity|]. intros H. apply S. exact H.
Qed.

Lemma t_deliver_one_tst : forall tm x,
  tst (t_deliver_one body tm x) = deliver_one body (snd tm) (tst x) /\
  (t_sync x -> t_sync (t_deliver_one body tm x)).
Proof.
  intros tm x. unfold t_deliver_one, deliver_one.
  destruct (t_invoke_tst tm (stamp (snd tm) (now (set_cancelCurrent false (tst x))))
              (mkTState (set_cancelCurrent false (tst x)) (tq x) (ntag x) (tlog x))) as [E S].
  cbv zeta. rewrite E. cbn [tst].
  destruct (negb (cancelCurrent (invoke body (stamp (snd tm) (now (set_cancelCurrent false (tst x))))
                                         (set_cancelCurrent false (tst x)))) && _).
  - split; [reflexivity|]. intros H. unfold t_sync. cbn [tq tst].
    pose proof (S H) as S'. unfold t_sync in S'.
    rewrite t_insert_map, S'. cbn [snd]. rewrite E. reflexivity.
  - split; [exact E|]. intros H. apply S, H.
Qed.

Lemma t_deliver_tst : forall b x,
  tst (t_deliver body b x) = deliver body (map snd b) (tst x) /\
  (t_sync x -> t_sync (t_deliver body b x)).
Proof.
  induction b as [|tm b IH]; intros x; simpl; [auto|].
  destruct (t_deliver_one_tst tm x) as [E S].
  destruct (IH (t_deliver_one body tm x)) as [E' S'].
  rewrite E', E. split; [reflexivity|]. intros H. apply S', S, H.
Qed.

Lemma t_post_wait_tst : forall x, t_sync x ->
  post_wait body (tst x) = (tst (fst (t_post_wait body x)), snd (t_post_wait body x)) /\
  t_sync (fst (t_post_wait body x)).
Proof.
  intros x H. unfold t_post_wait, post_wait.
  destruct (negb (running (tst x))); [simpl; auto|].
  unfold t_sync in H. rewrite <- H, t_drain_map.
  destruct (t_drain (now (tst x)) (tq x)) as [b r]. simpl.
  destruct (hardStopped (tst x)); simpl.
  - split; reflexivity.
  - destruct (t_deliver_tst b (mkTState (set_queue (map snd r) (tst x)) r (ntag x) (tlog x)))
      as [E S].
    rewrite E. split; [reflexivity|]. apply S. reflexivity.
Qed.

Lemma t_step_tst : forall e p x, t_sync x ->
  match t_step body e (p, x) with
  | Some (p', x') => step body e (p, tst x) = Some (p', tst x') /\ t_sync x'
  | None => step body e (p, tst x) = None
  end.
Proof.
  intros e p x H.
  assert (Haw : let (p', x') := t_after_wait body x in
                after_wait body (tst x) = (p', tst x') /\ t_sync x').
  { unfold t_after_wait, after_wait.
    destruct (t_post_wait_tst x H) as [E S].
    rewrite E. destruct (t_post_wait body x) as [x' k]. simpl. auto. }
  destruct e; simpl.
  - destruct p.
    + destruct (negb (running (tst x))); [auto|].
      destruct (should_wait (tst x)); [auto|].
      destruct (t_after_wait body x) as [p' x']. destruct Haw as [E S]. rewrite E. auto.
    + destruct (t_after_wait body x) as [p' x']. destruct Haw as [E S]. rewrite E. auto.
    + reflexivity.
  - destruct p; simpl; try reflexivity;
      (split; [reflexivity|apply (t_exec_op_sync (OPost f delay interval0)), H]).
  - destruct p; simpl; try reflexivity;
      (split; [reflexivity|apply (t_exec_op_sync (OCancel x0)), H]).
  - destruct p; simpl; try reflexivity; split; reflexivity.
  - destruct p; simpl; try reflexivity; split; reflexivity.
  - split; [reflexivity|exact H].
Qed.

Lemma t_run_tst : forall evs p x c', t_sync x ->
  run body evs (p, tst x) = Some c' ->
  exists x', t_run body evs (p, x) = Some (fst c', x') /\ tst x' = snd c' /\ t_sync x'.
Proof.
  induction evs as [|e evs IH]; intros p x c' H Hr; cbn [run t_run] in Hr |- *.
  - injection Hr as <-. exists x. auto.
  - pose proof (t_step_tst e p x H) as Hs.
    destruct (t_step body e (p, x)) as [[p1 x1]|].
    + destruct Hs as [E S]. rewrite E in Hr. apply (IH p1 x1 c' S Hr).
    + rewrite Hs in Hr. discriminate.
Qed.

Lemma t_invoke_inv : forall tm m x b,
  tlink tm m -> tinv (tm :: b) (tq x) (ntag x) (tlog x) ->
  Forall2 tlink (tlog x) (log (tst x)) ->
  tinv b (tq (t_invoke body tm m x)) (ntag (t_invoke body tm m x)) (tlog (t_invoke body tm m x)) /\
  Forall2 tlink (tlog (t_invoke body tm m x)) (log (tst (t_invoke body tm m x))).
Proof.
  intros tm m x b Hl H L. unfold t_invoke. destruct (func m) as [f|].
  - apply t_run_ops_inv; simpl.
    + apply tinv_pop, H.
    + apply Forall2_app; [exact L|constructor; [exact Hl|constructor]].
  - split; [apply (tinv_skip tm), H|exact L].
Qed.

Lemma t_deliver_one_inv : forall tm x b,
  tinv (tm :: b) (tq x) (ntag x) (tlog x) -> Forall2 tlink (tlog x) (log (tst x)) ->
  let x' := t_deliver_one body tm x in
  tinv b (tq x') (ntag x') (tlog x') /\ Forall2 tlink (tlog x') (log (tst x')).
Proof.
  intros tm x b H L. unfold t_deliver_one. cbv zeta.
  set (m1 := stamp (snd tm) (now (set_cancelCurrent false (tst x)))).
  assert (Hl : tlink tm m1).
  { destruct (stamp_fields (snd tm) (now (set_cancelCurrent false (tst x)))) as (E1 & E2 & _ & E4).
    unfold tlink, m1. split; [exact E1|]. split; [exact E2|].
    intros Hd. rewrite (E4 Hd). reflexivity. }
  destruct (t_invoke_inv tm m1 (mkTState (set_cancelCurrent false (tst x)) (tq x) (ntag x) (tlog x)) b
              Hl H L) as [I L'].
  destruct (negb _ && _); [|split; assumption].
  split; [apply tinv_insert, I|exact L'].
Qed.

Lemma t_deliver_inv : forall b x,
  tinv b (tq x) (ntag x) (tlog x) -> Forall2 tlink (tlog x) (log (tst x)) ->
  tinv [] (tq (t_deliver body b x)) (ntag (t_deliver body b x)) (tlog (t_deliver body b x)) /\
  Forall2 tlink (tlog (t_deliver body b x)) (log (tst (t_deliver body b x))).
Proof.
  induction b as [|tm b IH]; intros x H L; simpl; [auto|].
  destruct (t_deliver_one_inv tm x b H L) as [H' L']. apply IH; assumption.
Qed.

Lemma t_post_wait_inv : forall x,
  tinv [] (tq x) (ntag x) (tlog x) -> Forall2 tlink (tlog x) (log (tst x)) ->
  let x' := fst (t_post_wait body x) in
  tinv [] (tq x') (ntag x') (tlog x') /\ Forall2 tlink (tlog x') (log (tst x')).
Proof.
  intros x H L. unfold t_post_wait. cbv zeta.
  destruct (negb (running (tst x))); [simpl; auto|].
  rewrite t_drain_filter.
  pose proof (tinv_drain (now (tst x)) _ _ _ H) as D.
  cbn [tst hardStopped set_queue].
  destruct (hardStopped (tst x)); simpl.
  - split; [apply (tinv_drop_batch _ _ _ _ D)|exact L].
  - apply t_deliver_inv; [exact D|exact L].
Qed.

Lemma t_step_inv : forall e c c',
  t_step body e c = Some c' ->
  tinv [] (tq (snd c)) (ntag (snd c)) (tlog (snd c)) -> Forall2 tlink (tlog (snd c)) (log (tst (snd c))) ->
  tinv [] (tq (snd c')) (ntag (snd c')) (tlog (snd c')) /\
  Forall2 tlink (tlog (snd c')) (log (tst (snd c'))).
Proof.
  intros e [p x] c' Hs H L; simpl in H, L.
  assert (Haw : let x' := snd (t_after_wait body x) in
                tinv [] (tq x') (ntag x') (tlog x') /\ Forall2 tlink (tlog x') (log (tst x'))).
  { unfold t_after_wait. pose proof (t_post_wait_inv x H L) as P.
    destruct (t_post_wait body x) as [x' k]. exact P. }
  destruct e; simpl in Hs.
  - destruct p; [| |discriminate].
    + destruct (negb (running (tst x))); [injection Hs as <-; auto|].
      destruct (should_wait (tst x)); injection Hs as <-; [auto|exact Haw].
    + injection Hs as <-. exact Haw.
  - destruct p; simpl in Hs; try discriminate; injection Hs as <-;
      apply (t_exec_op_inv (OPost f delay interval0)); assumption.
  - destruct p; simpl in Hs; try discriminate; injection Hs as <-;
      apply (t_exec_op_inv (OCancel x0)); assumption.
  - destruct p; simpl in Hs; try discriminate; injection Hs as <-; simpl;
      (split; [apply (tinv_stop _ _ _ H)|exact L]).
  - destruct p; simpl in Hs; try discriminate; injection Hs as <-; simpl;
      (split; [apply (tinv_stop _ _ _ H)|exact L]).
  - injection Hs as <-. simpl. auto.
Qed.

Lemma t_run_inv : forall evs c c',
  t_run body evs c = Some c' ->
  tinv [] (tq (snd c)) (ntag (snd c)) (tlog (snd c)) -> Forall2 tlink (tlog (snd c)) (log (tst (snd c))) ->
  tinv [] (tq (snd c')) (ntag (snd c')) (tlog (snd c')) /\
  Forall2 tlink (tlog (snd c')) (log (tst (snd c'))).
Proof.
  induction evs as [|e evs IH]; intros c c' Hr H L; simpl in Hr.
  - injection Hr as <-. auto.
  - destruct (t_step body e c) as [c1|] eqn:E; [|discriminate].
    destruct (t_step_inv e c c1 E H L) as [H1 L1]. apply (IH c1 c' Hr H1 L1).
Qed.

End TaggedFacts.

(** Every run of the worker is the erasure of the tagged run, whose
    tags keep the invariant. *)
Lemma t_run_from_init : forall body evs first_id c',
  run body evs (AtHead, init_state first_id) = Some c' ->
  exists x', t_run body evs (AtHead, t_init first_id) = Some (fst c', x') /\
    tst x' = snd c' /\ t_sync x' /\
    tinv [] (tq x') (ntag x') (tlog x') /\ Forall2 tlink (tlog x') (log (snd c')).
Proof.
  intros body evs first_id c' Hr.
  destruct (t_init_inv first_id) as (I & L & S).
  destruct (t_run_tst body evs AtHead (t_init first_id) c' S Hr) as (x' & Ht & Ex & Sx).
  destruct (t_run_inv body evs _ _ Ht I L) as [I' L']. simpl in I', L'.
  exists x'. split; [exact Ht|]. split; [exact Ex|]. split; [exact Sx|].
  split; [exact I'|]. rewrite <- Ex. exact L'.
Qed.

(** C1 (as stated, refuted), in two parts.  First, the [deliverAt]
    values of the invoked callbacks, read after the sentinel is stamped,
    are not always non-decreasing: callback 0 runs at time 0, posts
    callback 1 for time 5, posts callback 2 for immediate delivery
    (sentinel 0, queued in front of callback 1) and returns at time 10;
    the next cycle delivers callback 2, stamped 10, then callback 1 with
    [deliverAt] 5.  Second, equal [deliverAt] values are not delivered in
    submission (id) order: task 0 (delay 10, interval 10) is submitted
    before task 1 (delay 20); task 0 runs at 10 and is reinserted for 20
    after task 1, so at time 20 task 1 runs before task 0. *)
Lemma C1_counterexample :
  ~ (forall body evs first_id c',
       run body evs (AtHead, init_state first_id) = Some c' ->
       Sorted le_d (log (snd c'))) /\
  ~ (forall body evs c',
       run body evs (AtHead, init_state 0) = Some c' ->
       StronglySorted (fun a b => deliverAt a = deliverAt b -> (id a <= id b)%N)
                      (log (snd c'))).
Proof.
  split.
  - intros H.
    specialize (H body_late_post late_post_events 0%N _ eq_refl).
    vm_compute in H.
    apply Sorted_inv in H as [H _].
    apply Sorted_inv in H as [_ H].
    apply HdRel_inv in H. compute in H. apply H. reflexivity.
  - intros H.
    set (c := run_config body_idle tie_events (AtHead, init_state 0)).
    assert (Hr : run body_idle tie_events (AtHead, init_state 0) = Some c)
      by (vm_compute; reflexivity).
    assert (Hl : log (snd c) = [mkMessage 0 10 10 (Some 0%nat);
                                mkMessage 1 20 0 (Some 1%nat);
                                mkMessage 0 20 10 (Some 0%nat)])
      by (vm_compute; reflexivity).
    specialize (H _ _ _ Hr). rewrite Hl in H.
    apply StronglySorted_inv in H as [H _].
    apply StronglySorted_inv in H as [_ H].
    inversion H as [|x l Hx _]; subst.
    cbn [deliverAt id] in Hx. specialize (Hx eq_refl). lia.
Qed.

(** C1 (amended).  Per delivery cycle: the batch is the due tasks of the
    (sorted) queue in queue order, so it is sorted by the [deliverAt]
    values held in the queue (the sentinel counting as 0), and the
    callbacks are invoked in batch order, each with that [deliverAt]
    unless it was the sentinel (then it is the stamping time).  Over the
    whole run: every run is the erasure of the run that tags each
    insertion (by [Post] or by reinsertion of a repeating task) with the
    number of insertions before it; the tagged queue is sorted by
    [deliverAt] and then by tag, and of two invoked tasks with the same
    queued [deliverAt] the one invoked first has the smaller tag, that is,
    was inserted first. *)
Theorem C1_batch_delivered_in_queue_order :
  (forall body evs first_id p st,
    run body evs (AtHead, init_state first_id) = Some (p, st) ->
    let (b, r) := drain (now st) (queue st) in
    sortedq b /\
    b = filter (due (now st)) (queue st) /\
    r = filter (fun m => negb (due (now st) m)) (queue st) /\
    exists E,
      log (deliver body b (set_queue r st)) = log st ++ E /\
      Forall2 (fun m e => id e = id m /\ func e = func m /\
                          (deliverAt m <> 0 -> deliverAt e = deliverAt m))
              (filter has_func b) E) /\
  (forall body evs first_id c',
    run body evs (AtHead, init_state first_id) = Some c' ->
    exists x', t_run body evs (AtHead, t_init first_id) = Some (fst c', x') /\
      tst x' = snd c' /\
      map snd (tq x') = queue (snd c') /\
      StronglySorted lex_before (tq x') /\
      StronglySorted tie_before (tlog x') /\
      Forall2 tlink (tlog x') (log (snd c'))).
Proof.
  split.
  - intros body evs first_id p st Hr.
    assert (Hs : sortedq (queue st)).
    { apply (run_sorted body evs _ (p, st) Hr). constructor. }
    rewrite drain_filter.
    split; [apply sortedq_filter, Hs|].
    split; [reflexivity|]. split; [reflexivity|].
    destruct (deliver_log body (filter (due (now st)) (queue st))
                (set_queue (filter (fun m => negb (due (now st) m)) (queue st)) st))
      as (E & HE & HF).
    exists E. split; [exact HE|exact HF].
  - intros body evs first_id c' Hr.
    destruct (t_run_from_init body evs first_id c' Hr)
      as (x' & Ht & Ex & Sx & (I1 & _ & _ & I4) & L).
    exists x'. split; [exact Ht|]. split; [exact Ex|].
    split; [unfold t_sync in Sx; rewrite Sx, Ex; reflexivity|].
    split; [exact I1|]. split; [|exact L].
    rewrite app_nil_r in I4. exact I4.
Qed.

Lemma N_as_nat : forall x : N, exists n : nat, N.of_nat n = x.
Proof. intros x. exists (N.to_nat x). apply Nnat.N2Nat.id. Qed.

Lemma run_repeat_post : forall body n st,
  run body (repeat (EPost None 1 0) n) (Waiting, st) = Some (Waiting, repeat_post n st).
Proof.
  intros body n; induction n as [|n IH]; intros st; simpl; [reflexivity|].
  apply IH.
Qed.

Lemma repeat_post_counter : forall n st,
  (lastMessageID st < uint32_modulus)%N ->
  lastMessageID (repeat_post n st) =
  N.modulo (lastMessageID st + N.of_nat n) uint32_modulus.
Proof.
  induction n as [|n IH]; intros st Hl; simpl.
  - rewrite N.add_0_r. symmetry. apply N.mod_small, Hl.
  - rewrite IH.
    + simpl. unfold uint32_succ.
      rewrite N.Div0.add_mod_idemp_l.
      f_equal. lia.
    + simpl. unfold uint32_succ. apply N.mod_lt. unfold uint32_modulus; lia.
Qed.

(** C3 (as stated, refuted): ids are not always strictly greater than
    the ids posted before.  After [2^32 - 1] posts on an object whose
    counter starts at 0, the next [Post] returns [4294967295] and the one
    after it returns [0]. *)
Lemma C3_counterexample :
  ~ (forall body evs st,
       run body evs (AtHead, init_state 0) = Some (Waiting, st) ->
       (snd (Post None 1 0 st) < snd (Post None 1 0 (fst (Post None 1 0 st))))%N).
Proof.
  intros H.
  destruct (N_as_nat 4294967295) as [n Hn].
  specialize (H (fun _ _ => []) (ESched :: repeat (EPost None 1 0) n)
                (repeat_post n (init_state 0))).
  assert (Hrun : run (fun _ _ => []) (ESched :: repeat (EPost None 1 0) n)
                   (AtHead, init_state 0) =
                 Some (Waiting, repeat_post n (init_state 0))).
  { simpl run. apply run_repeat_post. }
  specialize (H Hrun).
  assert (Hc : lastMessageID (repeat_post n (init_state 0)) = 4294967295%N).
  { rewrite repeat_post_counter by (simpl; unfold uint32_modulus; lia).
    simpl. rewrite Hn. reflexivity. }
  unfold Post in H. simpl in H. rewrite Hc in H.
  vm_compute in H. discriminate.
Qed.

(** C3 (amended): [Post] inserts the task with [deliverAt] [0] when
    [delay == 0] and [now + delay] otherwise; its id is the current value
    of the 32-bit counter [lastMessageID], which [Post] increments modulo
    [2^32], and [Post] returns that id.  So the returned id grows by one
    per [Post] as long as the counter is below [2^32 - 1], and wraps to 0
    after it. *)
Theorem C3_post_spec : forall f delay ival st,
  (lastMessageID st < uint32_modulus)%N ->
  let (st', r) := Post f delay ival st in
  r = lastMessageID st /\
  queue st' = InsertMessageInternal
                (mkMessage r (if delay =? 0 then 0 else now st + delay) ival f)
                (queue st) /\
  lastMessageID st' = N.modulo (r + 1) uint32_modulus /\
  ((r < uint32_modulus - 1)%N -> lastMessageID st' = (r + 1)%N /\ (r < lastMessageID st')%N) /\
  (r = uint32_modulus - 1 -> lastMessageID st' = 0)%N /\
  running st' = running st /\ hardStopped st' = hardStopped st /\
  now st' = now st /\ log st' = log st.
Proof.
  intros f delay ival st Hl. simpl.
  split; [reflexivity|]. split; [reflexivity|]. split; [reflexivity|].
  split; [|split; [|repeat split]].
  - intros Hr. unfold uint32_succ.
    rewrite N.mod_small by (unfold uint32_modulus in *; lia). lia.
  - intros Hr. unfold uint32_succ. rewrite Hr. reflexivity.
Qed.

Lemma count_calls_snoc : forall f l m,
  count_calls f (l ++ [m]) =
  (count_calls f l + match func m with Some g => if Nat.eqb g f then 1 else 0 | None => 0 end)%nat.
Proof.
  intros f l m. unfold count_calls. rewrite filter_app, length_app. simpl.
  destruct (func m) as [g|]; [destruct (Nat.eqb g f)|]; reflexivity.
Qed.

Lemma no_task_of_insert : forall f m q,
  func m <> Some f -> no_task_of f q -> no_task_of f (InsertMessageInternal m q).
Proof.
  unfold no_task_of. intros f m q Hm Hq. apply Forall_forall. intros y Hy.
  apply insert_In in Hy as [->|Hy]; [exact Hm|].
  rewrite Forall_forall in Hq. apply Hq, Hy.
Qed.

Lemma no_task_of_filter : forall f p q, no_task_of f q -> no_task_of f (filter p q).
Proof.
  unfold no_task_of. intros f p q Hq. apply Forall_forall. intros y Hy.
  apply filter_In in Hy as [Hy _]. rewrite Forall_forall in Hq. apply Hq, Hy.
Qed.

Lemma exec_op_no_task : forall f o st,
  op_posts f o = false -> no_task_of f (queue st) -> no_task_of f (queue (exec_op o st)).
Proof.
  intros f [g d i|x| |dt] st Ho Hq; simpl; try exact Hq.
  - apply no_task_of_insert; [|exact Hq]. simpl.
    destruct g as [g|]; [|discriminate].
    simpl in Ho. intros E. injection E as ->. rewrite Nat.eqb_refl in Ho. discriminate.
  - rewrite cancel_loop_filter. apply no_task_of_filter, Hq.
Qed.

Lemma run_ops_no_task : forall f ops st,
  Forall (fun o => op_posts f o = false) ops ->
  no_task_of f (queue st) -> no_task_of f (queue (run_ops ops st)).
Proof.
  intros f ops; induction ops as [|o ops IH]; intros st Ho Hq; simpl; [exact Hq|].
  inversion Ho; subst. apply IH; [assumption|]. apply exec_op_no_task; assumption.
Qed.

Section NoResubmission.

Variable body : nat -> nat -> list op.
Variable f : nat.
Hypothesis body_no_post : forall g k, Forall (fun o => op_posts f o = false) (body g k).

Lemma deliver_one_no_task : forall m st,
  func m <> Some f -> no_task_of f (queue st) ->
  no_task_of f (queue (deliver_one body m st)) /\
  count_calls f (log (deliver_one body m st)) = count_calls f (log st).
Proof.
  intros m st Hm Hq.
  destruct (stamp_fields m (now st)) as (_ & Ef & _).
  split.
  - unfold deliver_one.
    assert (Hi : no_task_of f (queue (invoke body (stamp m (now (set_cancelCurrent false st)))
                                               (set_cancelCurrent false st)))).
    { unfold invoke. simpl. rewrite Ef.
      destruct (func m) as [g|]; [|exact Hq].
      apply run_ops_no_task; [apply body_no_post|exact Hq]. }
    destruct (negb _ && _); [|exact Hi].
    simpl. apply no_task_of_insert; [|exact Hi]. simpl. rewrite Ef. exact Hm.
  - rewrite deliver_one_log. unfold has_func.
    destruct (func m) as [g|] eqn:Eg; [|rewrite app_nil_r; reflexivity].
    rewrite count_calls_snoc, Ef; try rewrite Eg.
    destruct (Nat.eqb g f) eqn:E; [|lia].
    apply Nat.eqb_eq in E; subst. contradiction.
Qed.

Lemma deliver_no_task : forall b st,
  no_task_of f b -> no_task_of f (queue st) ->
  no_task_of f (queue (deliver body b st)) /\
  count_calls f (log (deliver body b st)) = count_calls f (log st).
Proof.
  induction b as [|m b IH]; intros st Hb Hq; simpl; [auto|].
  inversion Hb as [|? ? Hm Hb']; subst.
  destruct (deliver_one_no_task m st Hm Hq) as [H1 H2].
  destruct (IH (deliver_one body m st) Hb' H1) as [H3 H4].
  split; [exact H3|congruence].
Qed.

Lemma after_wait_no_task : forall st,
  no_task_of f (queue st) ->
  no_task_of f (queue (snd (after_wait body st))) /\
  count_calls f (log (snd (after_wait body st))) = count_calls f (log st).
Proof.
  intros st Hq. unfold after_wait, post_wait.
  destruct (negb (running st)); [simpl; auto|].
  rewrite drain_filter. simpl.
  destruct (hardStopped st); simpl.
  - split; [apply no_task_of_filter, Hq|reflexivity].
  - destruct (deliver_no_task (filter (due (now st)) (queue st))
                (set_queue (filter (fun m => negb (due (now st) m)) (queue st)) st))
      as [H1 H2]; [apply no_task_of_filter, Hq|apply no_task_of_filter, Hq|].
    split; [exact H1|exact H2].
Qed.

Lemma step_no_task : forall e c c',
  event_posts f e = false -> step body e c = Some c' ->
  no_task_of f (queue (snd c)) ->
  no_task_of f (queue (snd c')) /\ count_calls f (log (snd c')) = count_calls f (log (snd c)).
Proof.
  intros e [p st] c' He Hst Hq; simpl in Hq |- *.
  destruct e; simpl in Hst.
  - destruct p; [| |discriminate].
    + destruct (negb (running st)); [injection Hst as <-; simpl; auto|].
      destruct (should_wait st); injection Hst as <-; [simpl; auto|].
      apply after_wait_no_task, Hq.
    + injection Hst as <-. apply after_wait_no_task, Hq.
  - destruct p; simpl in Hst; try discriminate; injection Hst as <-; simpl;
      (split; [|reflexivity]);
      (apply no_task_of_insert; [|exact Hq]); simpl;
      destruct f0 as [g|]; try discriminate;
      simpl in He; intros E; injection E as ->; rewrite Nat.eqb_refl in He; discriminate.
  - destruct p; simpl in Hst; try discriminate; injection Hst as <-; simpl;
      rewrite cancel_loop_filter; split; [apply no_task_of_filter, Hq| |
      apply no_task_of_filter, Hq|]; reflexivity.
  - destruct p; simpl in Hst; try discriminate; injection Hst as <-; simpl;
      split; constructor.
  - destruct p; simpl in Hst; try discriminate; injection Hst as <-; simpl;
      split; constructor.
  - injection Hst as <-. simpl. auto.
Qed.

Lemma run_no_task : forall evs c c',
  Forall (fun e => event_posts f e = false) evs ->
  run body evs c = Some c' -> no_task_of f (queue (snd c)) ->
  no_task_of f (queue (snd c')) /\ count_calls f (log (snd c')) = count_calls f (log (snd c)).
Proof.
  induction evs as [|e evs IH]; intros c c' He Hr Hq; simpl in Hr.
  - injection Hr as <-. auto.
  - inversion He as [|? ? He1 He']; subst.
    destruct (step body e c) as [c1|] eqn:E; [|discriminate].
    destruct (step_no_task e c c1 He1 E Hq) as [H1 H2].
    destruct (IH c1 c' He' Hr H1) as [H3 H4].
    split; [exact H3|congruence].
Qed.

End NoResubmission.

Lemma set_cancelCurrent_twice : forall b b' st,
  set_cancelCurrent b (set_cancelCurrent b' st) = set_cancelCurrent b st.
Proof. intros b b' [] ; reflexivity. Qed.

Lemma body_cancel_third_no_post : forall g k,
  Forall (fun o => op_posts 0 o = false) (body_cancel_third g k).
Proof.
  intros [|g] k; simpl; [destruct (Nat.eqb k 2)|]; repeat constructor.
Qed.

(** ** Counting the tasks of one callback *)

Lemma insert_after_loop_any : forall rest x m, exists l1 l2,
  x :: rest = l1 ++ l2 /\ insert_after_loop m (x :: rest) = l1 ++ m :: l2.
Proof.
  induction rest as [|y rest IH]; intros x m.
  - exists [x], []. split; reflexivity.
  - rewrite insert_after_loop_cons2.
    destruct ((deliverAt m <? deliverAt y) && (deliverAt x <=? deliverAt m)).
    + exists [x], (y :: rest). split; reflexivity.
    + destruct (IH y m) as (l1 & l2 & E1 & E2).
      exists (x :: l1), l2. rewrite E2, E1. split; reflexivity.
Qed.

Lemma insert_any_split : forall m q, exists l1 l2,
  q = l1 ++ l2 /\ InsertMessageInternal m q = l1 ++ m :: l2.
Proof.
  intros m [|q0 r]; unfold InsertMessageInternal.
  - exists [], []. split; reflexivity.
  - destruct (deliverAt m <? deliverAt q0).
    + exists [], (q0 :: r). split; reflexivity.
    + apply insert_after_loop_any.
Qed.

Lemma count_calls_app : forall f l1 l2,
  count_calls f (l1 ++ l2) = (count_calls f l1 + count_calls f l2)%nat.
Proof. intros f l1 l2. unfold count_calls. rewrite filter_app, length_app. reflexivity. Qed.

Lemma count_calls_cons : forall f m l,
  count_calls f (m :: l) = (count_calls f [m] + count_calls f l)%nat.
Proof. intros f m l. apply (count_calls_app f [m] l). Qed.

Lemma count_one_func : forall f a b,
  func a = func b -> count_calls f [a] = count_calls f [b].
Proof.
  intros f a b H. unfold count_calls. simpl. rewrite H.
  destruct (func b) as [g|]; [destruct (g =? f)%nat|]; reflexivity.
Qed.

Lemma count_one_cases : forall f m,
  count_calls f [m] = 0%nat \/ (count_calls f [m] = 1%nat /\ func m = Some f).
Proof.
  intros f m. unfold count_calls. simpl.
  destruct (func m) as [g|]; [destruct (g =? f)%nat eqn:E|]; simpl; auto.
  apply Nat.eqb_eq in E. subst. auto.
Qed.

Lemma count_one_other : forall f m, func m <> Some f -> count_calls f [m] = 0%nat.
Proof.
  intros f m H. destruct (count_one_cases f m) as [E|[_ E]]; [exact E|contradiction].
Qed.

Lemma count_insert : forall f m q,
  count_calls f (InsertMessageInternal m q) = (count_calls f [m] + count_calls f q)%nat.
Proof.
  intros f m q. destruct (insert_any_split m q) as (l1 & l2 & -> & ->).
  rewrite !count_calls_app, (count_calls_cons f m l2). lia.
Qed.

Lemma count_filter_le : forall f (p : Message -> bool) l,
  (count_calls f (filter p l) <= count_calls f l)%nat.
Proof.
  intros f p l; induction l as [|a l IH]; [apply Nat.le_refl|].
  cbn [filter]. rewrite (count_calls_cons f a l).
  destruct (p a); [rewrite (count_calls_cons f a (filter p l))|]; lia.
Qed.

Lemma count_filter_partition : forall f (p : Message -> bool) l,
  (count_calls f (filter p l) + count_calls f (filter (fun m => negb (p m)) l))%nat =
  count_calls f l.
Proof.
  intros f p l; induction l as [|a l IH]; [reflexivity|].
  cbn [filter]. rewrite (count_calls_cons f a l).
  destruct (p a); cbn [negb];
    [rewrite (count_calls_cons f a (filter p l))
    |rewrite (count_calls_cons f a (filter (fun m => negb (p m)) l))]; lia.
Qed.

Lemma no_task_count : forall f l, count_calls f l = 0%nat -> no_task_of f l.
Proof.
  intros f l; induction l as [|a l IH]; intros H; [constructor|].
  rewrite count_calls_cons in H. constructor.
  - intros E. destruct (count_one_cases f a) as [E'|[E' _]].
    + unfold count_calls in E'. simpl in E'. rewrite E, Nat.eqb_refl in E'. discriminate.
    + lia.
  - apply IH. lia.
Qed.

Lemma count_no_task : forall f l, no_task_of f l -> count_calls f l = 0%nat.
Proof.
  intros f l; induction l as [|a l IH]; intros H; [reflexivity|].
  inversion H as [|? ? Ha Hl]; subst.
  rewrite count_calls_cons, count_one_other by exact Ha. apply IH, Hl.
Qed.

Lemma run_ops_cancel_sticky : forall ops st,
  cancelCurrent st = true \/ In OCancelSelf ops -> cancelCurrent (run_ops ops st) = true.
Proof.
  induction ops as [|o ops IH]; intros st [H|H]; simpl.
  - exact H.
  - destruct H.
  - apply IH. left. destruct o; simpl; first [exact H|reflexivity].
  - apply IH. destruct H as [->|H]; [left; reflexivity|right; exact H].
Qed.

Lemma run_app : forall body l1 l2 c,
  run body (l1 ++ l2) c =
  match run body l1 c with Some c1 => run body l2 c1 | None => None end.
Proof.
  induction l1 as [|e l1 IH]; intros l2 c; simpl; [reflexivity|].
  destruct (step body e c); [apply IH|reflexivity].
Qed.

Lemma cancel_third_inv_mono : forall c n n',
  (n' <= n)%nat -> cancel_third_inv c n -> cancel_third_inv c n'.
Proof. unfold cancel_third_inv. lia. Qed.

Lemma deliver_one_count_log : forall body f m st,
  count_calls f (log (deliver_one body m st)) =
  (count_calls f (log st) + count_calls f [m])%nat.
Proof.
  intros body f m st. rewrite deliver_one_log, count_calls_app. f_equal.
  destruct (stamp_fields m (now st)) as (_ & Ef & _).
  unfold has_func. destruct (func m) as [g|] eqn:Eg.
  - apply count_one_func. rewrite Ef, Eg. reflexivity.
  - symmetry. apply count_one_other. rewrite Eg. discriminate.
Qed.

Lemma deliver_one_count_queue : forall body f m st,
  (count_calls f (queue (deliver_one body m st)) <=
   count_calls f [m] +
   count_calls f (queue (invoke body (stamp m (now st)) (set_cancelCurrent false st))))%nat /\
  (cancelCurrent (invoke body (stamp m (now st)) (set_cancelCurrent false st)) = true ->
   queue (deliver_one body m st) =
   queue (invoke body (stamp m (now st)) (set_cancelCurrent false st))).
Proof.
  intros body f m st.
  destruct (stamp_fields m (now st)) as (_ & Ef & _).
  unfold deliver_one. change (now (set_cancelCurrent false st)) with (now st).
  split.
  - destruct (negb _ && _).
    + change (queue (set_queue ?q ?s)) with q. rewrite count_insert.
      rewrite (count_one_func f _ m) by exact Ef. lia.
    + lia.
  - intros Hc. rewrite Hc. reflexivity.
Qed.

Section CancelThird.

Variable body : nat -> nat -> list op.
Variable f : nat.
Hypothesis body_no_post : forall g k, Forall (fun o => op_posts f o = false) (body g k).
Hypothesis third_cancels : In OCancelSelf (body f 2).

Lemma exec_op_count : forall o st,
  op_posts f o = false ->
  (count_calls f (queue (exec_op o st)) <= count_calls f (queue st))%nat.
Proof.
  intros o st Ho. destruct o as [g d i|x| |dt].
  - change (queue (exec_op (OPost g d i) st)) with
      (InsertMessageInternal
         (mkMessage (lastMessageID st) (if d =? 0 then 0 else now st + d) i g) (queue st)).
    rewrite count_insert, count_one_other; [lia|]. simpl.
    destruct g as [g|]; [|discriminate].
    simpl in Ho. intros E. injection E as ->. rewrite Nat.eqb_refl in Ho. discriminate.
  - change (queue (exec_op (OCancel x) st)) with (cancel_loop x (queue st)).
    rewrite cancel_loop_filter. apply count_filter_le.
  - apply Nat.le_refl.
  - apply Nat.le_refl.
Qed.

Lemma run_ops_count : forall ops st,
  Forall (fun o => op_posts f o = false) ops ->
  (count_calls f (queue (run_ops ops st)) <= count_calls f (queue st))%nat.
Proof.
  induction ops as [|o ops IH]; intros st Ho; simpl; [apply Nat.le_refl|].
  inversion Ho; subst.
  specialize (IH (exec_op o st) ltac:(assumption)).
  pose proof (exec_op_count o st ltac:(assumption)). lia.
Qed.

Lemma invoke_count : forall m st,
  (count_calls f (queue (invoke body (stamp m (now st)) (set_cancelCurrent false st))) <=
   count_calls f (queue st))%nat.
Proof.
  intros m st.
  destruct (stamp_fields m (now st)) as (_ & Ef & _).
  unfold invoke. rewrite Ef. destruct (func m) as [g|]; [|apply Nat.le_refl].
  eapply Nat.le_trans; [apply run_ops_count, body_no_post|apply Nat.le_refl].
Qed.

Lemma invoke_third_cancels : forall m st,
  func m = Some f -> count_calls f (log st) = 2%nat ->
  cancelCurrent (invoke body (stamp m (now st)) (set_cancelCurrent false st)) = true.
Proof.
  intros m st Hf Hc.
  destruct (stamp_fields m (now st)) as (_ & Ef & _).
  unfold invoke. rewrite Ef, Hf.
  change (log (set_cancelCurrent false st)) with (log st). rewrite Hc.
  apply run_ops_cancel_sticky. right. exact third_cancels.
Qed.

Lemma deliver_one_third : forall m st r,
  cancel_third_inv (count_calls f (log st))
                   (count_calls f [m] + r + count_calls f (queue st)) ->
  cancel_third_inv (count_calls f (log (deliver_one body m st)))
                   (r + count_calls f (queue (deliver_one body m st))).
Proof.
  intros m st r Hi.
  rewrite deliver_one_count_log.
  destruct (deliver_one_count_queue body f m st) as [Q1 Q2].
  pose proof (invoke_count m st) as Q3.
  destruct (count_one_cases f m) as [M|[M Hf]]; rewrite M in *.
  - rewrite Nat.add_0_r. eapply cancel_third_inv_mono; [|exact Hi]. lia.
  - unfold cancel_third_inv in *.
    destruct (Nat.eq_dec (count_calls f (log st)) 2) as [E|E].
    + rewrite (Q2 (invoke_third_cancels m st Hf E)). lia.
    + lia.
Qed.

Lemma deliver_third : forall b st,
  cancel_third_inv (count_calls f (log st)) (count_calls f b + count_calls f (queue st)) ->
  cancel_third_inv (count_calls f (log (deliver body b st)))
                   (count_calls f (queue (deliver body b st))).
Proof.
  induction b as [|m b IH]; intros st Hi; simpl.
  - exact Hi.
  - apply IH. apply (deliver_one_third m st (count_calls f b)).
    rewrite count_calls_cons in Hi. exact Hi.
Qed.

Lemma after_wait_third : forall st,
  cancel_third_inv (count_calls f (log st)) (count_calls f (queue st)) ->
  cancel_third_inv (count_calls f (log (snd (after_wait body st))))
                   (count_calls f (queue (snd (after_wait body st)))).
Proof.
  intros st Hi. unfold after_wait, post_wait.
  destruct (negb (running st)); [exact Hi|].
  rewrite drain_filter.
  change (hardStopped (set_queue (filter (fun m => negb (due (now st) m)) (queue st)) st))
    with (hardStopped st).
  destruct (hardStopped st).
  - eapply cancel_third_inv_mono; [|exact Hi]. apply count_filter_le.
  - apply deliver_third. change (log (set_queue ?q st)) with (log st).
    change (queue (set_queue ?q st)) with q.
    rewrite count_filter_partition. exact Hi.
Qed.

Lemma step_third : forall e c c',
  event_posts f e = false -> step body e c = Some c' ->
  cancel_third_inv (count_calls f (log (snd c))) (count_calls f (queue (snd c))) ->
  cancel_third_inv (count_calls f (log (snd c'))) (count_calls f (queue (snd c'))).
Proof.
  intros e [p st] c' He Hst Hi; cbn [snd] in Hi |- *.
  destruct e; cbn [step] in Hst.
  - destruct p; [| |discriminate].
    + destruct (negb (running st)); [injection Hst as <-; exact Hi|].
      destruct (should_wait st); injection Hst as <-; [exact Hi|].
      apply after_wait_third, Hi.
    + injection Hst as <-. apply after_wait_third, Hi.
  - destruct p; cbn [external_call] in Hst; try discriminate; injection Hst as <-;
      cbn [snd fst Post log queue]; rewrite count_insert, count_one_other; try exact Hi;
      simpl; destruct f0 as [g|]; try discriminate;
      simpl in He; intros E; injection E as ->; rewrite Nat.eqb_refl in He; discriminate.
  - destruct p; cbn [external_call] in Hst; try discriminate; injection Hst as <-;
      cbn [snd Cancel set_queue log queue]; rewrite cancel_loop_filter;
      (eapply cancel_third_inv_mono; [apply count_filter_le|exact Hi]).
  - destruct p; cbn [external_call] in Hst; try discriminate; injection Hst as <-;
      cbn [snd Stop log queue]; (eapply cancel_third_inv_mono; [|exact Hi]); apply Nat.le_0_l.
  - destruct p; cbn [external_call] in Hst; try discriminate; injection Hst as <-;
      cbn [snd HardStop log queue]; (eapply cancel_third_inv_mono; [|exact Hi]); apply Nat.le_0_l.
  - injection Hst as <-. exact Hi.
Qed.

Lemma run_third : forall evs c c',
  Forall (fun e => event_posts f e = false) evs ->
  run body evs c = Some c' ->
  cancel_third_inv (count_calls f (log (snd c))) (count_calls f (queue (snd c))) ->
  cancel_third_inv (count_calls f (log (snd c'))) (count_calls f (queue (snd c'))).
Proof.
  induction evs as [|e evs IH]; intros c c' He Hr Hi; simpl in Hr.
  - injection Hr as <-. exact Hi.
  - inversion He as [|? ? He1 He']; subst.
    destruct (step body e c) as [c1|] eqn:E; [|discriminate].
    apply (IH c1 c' He' Hr). apply (step_third e c c1 He1 E Hi).
Qed.

End CancelThird.

Lemma count_one_le : forall f m, (count_calls f [m] <= 1)%nat.
Proof. intros f m. destruct (count_one_cases f m) as [E|[E _]]; lia. Qed.

(** C5: [cancelCurrent] is cleared before each callback (the outcome of
    delivering a task does not depend on the flag left by the previous
    one); when the callback sets it through [CancelSelf] the task is not
    reinserted, whatever its interval.  Hence, for every callback program
    and every schedule of the worker and the other threads in which
    callback [f] is submitted once (a single [Post], made by another
    thread, and no callback posts [f]) and calls [CancelSelf()] in its
    third invocation: [f] is invoked at most 3 times, and once it has been
    invoked 3 times no task of [f] is queued and it is never invoked
    again, whatever happens next short of submitting [f] again.
    Concretely, a task posted with interval 10 whose callback cancels
    itself in its third invocation runs at times 0, 10 and 20. *)
Theorem C5_cancel_self_stops_repeating :
  (forall body m st b,
     deliver_one body m (set_cancelCurrent b st) = deliver_one body m st) /\
  (forall body m st,
     cancelCurrent (invoke body (stamp m (now st)) (set_cancelCurrent false st)) = true ->
     deliver_one body m st = invoke body (stamp m (now st)) (set_cancelCurrent false st)) /\
  (forall body f first_id evs1 d i evs2 c',
     (forall g k, Forall (fun o => op_posts f o = false) (body g k)) ->
     In OCancelSelf (body f 2%nat) ->
     Forall (fun e => event_posts f e = false) (evs1 ++ evs2) ->
     run body (evs1 ++ EPost (Some f) d i :: evs2) (AtHead, init_state first_id) = Some c' ->
     (count_calls f (log (snd c')) <= 3)%nat /\
     (count_calls f (log (snd c')) = 3%nat ->
        no_task_of f (queue (snd c')) /\
        forall evs3 c'',
          Forall (fun e => event_posts f e = false) evs3 ->
          run body evs3 c' = Some c'' -> count_calls f (log (snd c'')) = 3%nat)) /\
  (exists st,
     run body_cancel_third repeat_events (AtHead, init_state 0) = Some (Waiting, st) /\
     map deliverAt (log st) = [0; 10; 20] /\
     count_calls 0 (log st) = 3%nat /\ queue st = [] /\
     forall evs c',
       Forall (fun e => event_posts 0 e = false) evs ->
       run body_cancel_third evs (Waiting, st) = Some c' ->
       count_calls 0 (log (snd c')) = 3%nat).
Proof.
  split; [|split; [|split]].
  - intros body m st b. unfold deliver_one.
    rewrite set_cancelCurrent_twice. reflexivity.
  - intros body m st Hc. unfold deliver_one. simpl. simpl in Hc.
    rewrite Hc. reflexivity.
  - intros body f first_id evs1 d i evs2 c' Hb H3 He Hr.
    apply Forall_app in He as [He1 He2].
    rewrite run_app in Hr.
    destruct (run body evs1 (AtHead, init_state first_id)) as [c1|] eqn:E1; [|discriminate].
    cbn [run] in Hr.
    destruct (step body (EPost (Some f) d i) c1) as [c2|] eqn:E2; [|discriminate].
    destruct (run_no_task body f Hb evs1 _ c1 He1 E1) as [N1 L1]; [constructor|].
    change (count_calls f (log (snd (AtHead, init_state first_id)))) with 0%nat in L1.
    assert (I2 : cancel_third_inv (count_calls f (log (snd c2)))
                                  (count_calls f (queue (snd c2)))).
    { destruct c1 as [p1 st1]. cbn [snd] in N1, L1. cbn [step] in E2.
      destruct p1; cbn [external_call] in E2; try discriminate; injection E2 as <-;
        cbn [snd fst Post log queue]; rewrite count_insert, (count_no_task f _ N1), L1;
        match goal with |- context [count_calls f [?m]] => pose proof (count_one_le f m) end;
        unfold cancel_third_inv; lia. }
    pose proof (run_third body f Hb H3 evs2 c2 c' He2 Hr I2) as I3.
    unfold cancel_third_inv in I3.
    split; [lia|]. intros Hc. split.
    + apply no_task_count. lia.
    + intros evs3 c'' He3 Hr3.
      destruct (run_no_task body f Hb evs3 c' c'' He3 Hr3) as [_ Hc3];
        [apply no_task_count; lia|].
      congruence.
  - eexists. split; [vm_compute; reflexivity|].
    split; [reflexivity|]. split; [reflexivity|]. split; [reflexivity|].
    intros evs c' He Hr.
    destruct (run_no_task body_cancel_third 0 body_cancel_third_no_post evs _ c' He Hr)
      as [_ Hcount]; [constructor|].
    rewrite Hcount. reflexivity.
Qed.

(** C6: when a repeating task ([interval > 0]) is not self-cancelled, it
    is reinserted with [deliverAt] equal to its intended delivery time
    (its queued [deliverAt], or the stamping time for the sentinel) plus
    the interval, independently of how long the callback ran; the
    reinserted value is not a sentinel, so it is the [deliverAt] of the
    next invocation. *)
Theorem C6_reinsert_from_intended_time : forall body m st,
  0 < interval m ->
  cancelCurrent (invoke body (stamp m (now st)) (set_cancelCurrent false st)) = false ->
  let m1 := stamp m (now st) in
  let next := with_deliverAt (deliverAt m1 + interval m) m1 in
  deliverAt m1 = (if deliverAt m =? 0 then now st else deliverAt m) /\
  queue (deliver_one body m st) =
    InsertMessageInternal next (queue (invoke body m1 (set_cancelCurrent false st))) /\
  (0 <= deliverAt m1 -> forall t, stamp next t = next).
Proof.
  intros body m st Hi Hc m1 next.
  destruct (stamp_fields m (now st)) as (_ & _ & Ei & _).
  split; [|split].
  - unfold m1, stamp. destruct (deliverAt m =? 0); reflexivity.
  - unfold deliver_one. simpl. simpl in Hc. rewrite Hc.
    rewrite Ei.
    assert (E : (0 <? interval m) = true) by (apply Z.ltb_lt; exact Hi).
    rewrite E. reflexivity.
  - intros H0 t. unfold stamp, next. simpl.
    assert (E : (deliverAt m1 + interval m =? 0) = false) by (apply Z.eqb_neq; lia).
    rewrite E. reflexivity.
Qed.

Lemma cancel_loop_absent : forall x q, ~ In x (map id q) -> cancel_loop x q = q.
Proof.
  intros x q; induction q as [|m q IH]; intros Hx; simpl; [reflexivity|].
  simpl in Hx. destruct (id m =? x)%N eqn:E.
  - apply N.eqb_eq in E. exfalso. apply Hx. left. exact E.
  - rewrite IH; [reflexivity|]. intros H; apply Hx; right; exact H.
Qed.

Lemma NoDup_map_id_eq : forall q a b,
  NoDup (map id q) -> In a q -> In b q -> id a = id b -> a = b.
Proof.
  induction q as [|m q IH]; intros a b Hd Ha Hb Hab; [destruct Ha|].
  simpl in Hd. inversion Hd as [|? ? Hm Hd']; subst.
  destruct Ha as [<-|Ha], Hb as [<-|Hb]; try reflexivity.
  - exfalso. apply Hm. rewrite Hab. apply in_map, Hb.
  - exfalso. apply Hm. rewrite <- Hab. apply in_map, Ha.
  - apply IH; assumption.
Qed.

Lemma deliver_one_reinserts : forall body m st f,
  0 < interval m -> func m = Some f ->
  ~ In OCancelSelf (body f (count_calls f (log st))) ->
  queue (deliver_one body m st) =
  InsertMessageInternal
    (with_deliverAt (deliverAt (stamp m (now st)) + interval m) (stamp m (now st)))
    (queue (invoke body (stamp m (now st)) (set_cancelCurrent false st))).
Proof.
  intros body m st f Hi Hf Hn.
  destruct (stamp_fields m (now st)) as (_ & Ef & Ei & _).
  unfold deliver_one. simpl.
  assert (Hc : cancelCurrent (invoke body (stamp m (now st)) (set_cancelCurrent false st)) = false).
  { unfold invoke. rewrite Ef, Hf. simpl.
    destruct (run_ops_frame (body f (count_calls f (log st)))
       (set_log (log st ++ [stamp m (now st)]) (set_cancelCurrent false st)))
      as (_ & _ & _ & Hcc & _).
    rewrite Hcc by exact Hn. reflexivity. }
  rewrite Hc, Ei.
  assert (E : (0 <? interval m) = true) by (apply Z.ltb_lt; exact Hi).
  rewrite E. reflexivity.
Qed.

Lemma filter_all_false : forall (p : Message -> bool) l,
  (forall x, In x l -> p x = false) -> filter p l = [].
Proof.
  intros p l; induction l as [|a l IH]; intros H; simpl; [reflexivity|].
  rewrite (H a (or_introl eq_refl)). apply IH. intros x Hx. apply H. right; exact Hx.
Qed.


Lemma filter_all_true : forall (p : Message -> bool) l,
  (forall x, In x l -> p x = true) -> filter p l = l.
Proof.
  intros p l; induction l as [|a l IH]; intros H; simpl; [reflexivity|].
  rewrite (H a (or_introl eq_refl)). f_equal. apply IH. intros x Hx. apply H. right; exact Hx.
Qed.


Lemma insert_after_loop_last : forall rest x m,
  Forall (fun y => deliverAt y <= deliverAt m) rest ->
  insert_after_loop m (x :: rest) = x :: rest ++ [m].
Proof.
  induction rest as [|y rest IH]; intros x m H; [reflexivity|].
  inversion H as [|? ? Hy Hr]; subst.
  rewrite insert_after_loop_cons2.
  assert (E : (deliverAt m <? deliverAt y) = false) by (apply Z.ltb_ge; exact Hy).
  rewrite E. cbn [andb]. rewrite (IH y m Hr). reflexivity.
Qed.

Lemma insert_last : forall m q,
  Forall (fun y => deliverAt y <= deliverAt m) q -> InsertMessageInternal m q = q ++ [m].
Proof.
  intros m [|q0 r] H; [reflexivity|].
  inversion H as [|? ? Hq Hr]; subst.
  unfold InsertMessageInternal.
  assert (E : (deliverAt m <? deliverAt q0) = false) by (apply Z.ltb_ge; exact Hq).
  rewrite E. apply insert_after_loop_last, Hr.
Qed.

Lemma insert_keeps : forall m q y, In y q -> In y (InsertMessageInternal m q).
Proof.
  intros m q y Hy. destruct (insert_any_split m q) as (l1 & l2 & -> & ->).
  apply in_app_iff in Hy as [Hy|Hy]; apply in_app_iff; [left|right; right]; exact Hy.
Qed.

Lemma repeat_post_shape : forall n st,
  Forall (fun y => deliverAt y <= now st + 1) (queue st) ->
  exists l', queue (repeat_post n st) = queue st ++ l' /\
    Forall (fun y => deliverAt y = now st + 1 /\ func y = None) l' /\
    running (repeat_post n st) = running st /\
    hardStopped (repeat_post n st) = hardStopped st /\
    now (repeat_post n st) = now st /\
    log (repeat_post n st) = log st.
Proof.
  induction n as [|n IH]; intros st H.
  - exists []. rewrite app_nil_r. repeat split; constructor.
  - cbn [repeat_post].
    set (mm := mkMessage (lastMessageID st) (now st + 1) 0 None).
    assert (Eq : queue (fst (Post None 1 0 st)) = queue st ++ [mm]).
    { change (queue (fst (Post None 1 0 st))) with (InsertMessageInternal mm (queue st)).
      apply insert_last. exact H. }
    destruct (IH (fst (Post None 1 0 st))) as (l'' & E1 & F & R & Hs & N & L).
    { change (now (fst (Post None 1 0 st))) with (now st). rewrite Eq.
      apply Forall_app. split; [exact H|]. constructor; [simpl; lia|constructor]. }
    change (now (fst (Post None 1 0 st))) with (now st) in F, N.
    exists (mm :: l''). split; [rewrite E1, Eq, <- app_assoc; reflexivity|].
    split; [constructor; [split; reflexivity|exact F]|].
    split; [exact R|]. split; [exact Hs|]. split; [exact N|exact L].
Qed.

Lemma deliver_one_cancel_id : forall body m st f x,
  0 < interval m -> func m = Some f ->
  body f (count_calls f (log st)) = [OCancel x] ->
  queue (deliver_one body m st) =
  InsertMessageInternal
    (with_deliverAt (deliverAt (stamp m (now st)) + interval m) (stamp m (now st)))
    (filter (fun y => negb (id y =? x)%N) (queue st)).
Proof.
  intros body m st f x Hi Hf Hb.
  rewrite (deliver_one_reinserts body m st f Hi Hf)
    by (rewrite Hb; intros [H|H]; [discriminate|destruct H]).
  destruct (stamp_fields m (now st)) as (_ & Ef & _).
  unfold invoke. rewrite Ef, Hf.
  change (log (set_cancelCurrent false st)) with (log st). rewrite Hb.
  cbn [run_ops exec_op Cancel set_queue queue set_log set_cancelCurrent].
  rewrite cancel_loop_filter. reflexivity.
Qed.

(** C10 (as stated, refuted): a [Cancel] with the running task's own id
    does not always remove nothing.  Ids wrap at [2^32]: the worker waits,
    another thread posts [msg_first] (id 0, immediate, interval 10) and
    then [2^32] tasks [Post(nullptr, 1, 0)], the last of which gets id 0
    again.  When the worker wakes at time 0 it delivers [msg_first] alone;
    its callback calls [Cancel(0)], which removes the last posted task from
    the queue. *)
Lemma C10_counterexample :
  ~ (forall body evs first_id p st m b' f,
       run body evs (AtHead, init_state first_id) = Some (p, st) ->
       p = Waiting -> running st = true -> hardStopped st = false ->
       fst (drain (now st) (queue st)) = m :: b' ->
       0 < interval m -> func m = Some f ->
       body f (count_calls f (log st)) = [OCancel (id m)] ->
       queue (deliver_one body m (set_queue (snd (drain (now st) (queue st))) st)) =
       InsertMessageInternal
         (with_deliverAt (deliverAt (stamp m (now st)) + interval m) (stamp m (now st)))
         (snd (drain (now st) (queue st)))).
Proof.
  intros H.
  destruct (N_as_nat 4294967295) as [n Hn].
  set (st1 := mkState true false [msg_first] 1 false 0 []).
  set (stR := repeat_post n st1).
  destruct (repeat_post_shape n st1) as (l' & Eq & F & R & Hs & N & L).
  { constructor; [simpl; lia|constructor]. }
  fold stR in Eq, R, Hs, N, L. cbn [now queue running hardStopped log st1] in F, Eq, R, Hs, N, L.
  assert (Hid : lastMessageID stR = 0%N).
  { unfold stR. rewrite repeat_post_counter; [|reflexivity].
    cbn [lastMessageID st1]. rewrite Hn. reflexivity. }
  set (c := mkMessage 0 1 0 None).
  set (stF := fst (Post None 1 0 stR)).
  assert (EqF : queue stF = msg_first :: l' ++ [c]).
  { change (queue stF) with
      (InsertMessageInternal (mkMessage (lastMessageID stR) (now stR + 1) 0 None) (queue stR)).
    rewrite Hid, N, Eq, insert_last; [reflexivity|].
    constructor; [simpl; lia|].
    eapply Forall_impl; [|exact F]. intros y [Hy _]. simpl. lia. }
  assert (Hr : run body_cancel_own_id (wrap_events n) (AtHead, init_state 0) =
               Some (Waiting, stF)).
  { unfold wrap_events. rewrite run_app.
    change (run body_cancel_own_id [ESched; EPost (Some 0%nat) 0 10] (AtHead, init_state 0))
      with (Some (Waiting, st1)).
    cbv beta iota. rewrite run_app, run_repeat_post. reflexivity. }
  assert (HnF : now stF = 0) by exact N.
  assert (Hdue : forall y, In y (l' ++ [c]) -> due 0 y = false).
  { intros y Hy. apply in_app_iff in Hy as [Hy|[<-|[]]]; [|reflexivity].
    rewrite Forall_forall in F. destruct (F y Hy) as [Hy1 _].
    unfold due. rewrite Hy1. reflexivity. }
  assert (Hd : drain (now stF) (queue stF) = ([msg_first], l' ++ [c])).
  { rewrite HnF, EqF, drain_filter. cbn [filter].
    change (due 0 msg_first) with true. cbn [negb].
    rewrite (filter_all_false _ _ Hdue).
    rewrite (filter_all_true (fun m => negb (due 0 m))); [reflexivity|].
    intros y Hy. rewrite (Hdue y Hy). reflexivity. }
  specialize (H body_cancel_own_id (wrap_events n) 0%N Waiting stF msg_first [] 0%nat Hr
                eq_refl).
  rewrite Hd in H. cbn [fst snd] in H.
  specialize (H (eq_trans (f_equal running (eq_refl stF)) R)
                (eq_trans (f_equal hardStopped (eq_refl stF)) Hs)
                eq_refl ltac:(simpl; lia) eq_refl eq_refl).
  rewrite (deliver_one_cancel_id body_cancel_own_id msg_first _ 0%nat 0%N eq_refl eq_refl eq_refl)
    in H.
  assert (Hc : In c (InsertMessageInternal
                       (with_deliverAt (deliverAt (stamp msg_first (now stF)) + interval msg_first)
                                       (stamp msg_first (now stF)))
                       (l' ++ [c]))).
  { apply insert_keeps. apply in_app_iff. right. left. reflexivity. }
  change (now (set_cancelCurrent false (set_queue (l' ++ [c]) stF))) with (now stF) in H.
  change (queue (set_queue (l' ++ [c]) stF)) with (l' ++ [c]) in H.
  rewrite <- H in Hc.
  apply insert_In in Hc as [Hc|Hc].
  - apply (f_equal func) in Hc. discriminate.
  - apply filter_In in Hc as [_ Hc]. discriminate.
Qed.

(** C10 (amended): the running task is not in the queue while its
    callback runs (the drain moved it to the batch), and it is reinserted
    after the callback whenever the callback does not call [CancelSelf],
    whatever [Cancel] calls it makes.  A [Cancel] with the task's own id
    removes every other queued task with that id, and removes nothing only
    when no queued task shares the id, which holds as long as the ids in the
    queue are distinct (until the 32-bit counter wraps round). *)
Theorem C10_cancel_own_id_does_not_stop_repeat :
  (forall t q m, In m (fst (drain t q)) -> ~ In m (snd (drain t q))) /\
  (forall t q m, NoDup (map id q) -> In m (fst (drain t q)) ->
     ~ In (id m) (map id (snd (drain t q)))) /\
  (forall body m st f,
     0 < interval m -> func m = Some f ->
     ~ In OCancelSelf (body f (count_calls f (log st))) ->
     queue (deliver_one body m st) =
     InsertMessageInternal
       (with_deliverAt (deliverAt (stamp m (now st)) + interval m) (stamp m (now st)))
       (queue (invoke body (stamp m (now st)) (set_cancelCurrent false st)))) /\
  (forall body m st f,
     0 < interval m -> func m = Some f ->
     body f (count_calls f (log st)) = [OCancel (id m)] ->
     queue (deliver_one body m st) =
     InsertMessageInternal
       (with_deliverAt (deliverAt (stamp m (now st)) + interval m) (stamp m (now st)))
       (filter (fun y => negb (id y =? id m)%N) (queue st))) /\
  (forall body m st f,
     0 < interval m -> func m = Some f ->
     body f (count_calls f (log st)) = [OCancel (id m)] ->
     ~ In (id m) (map id (queue st)) ->
     queue (deliver_one body m st) =
     InsertMessageInternal
       (with_deliverAt (deliverAt (stamp m (now st)) + interval m) (stamp m (now st)))
       (queue st)).
Proof.
  split; [|split; [|split; [|split]]].
  - intros t q m Hm Hin. rewrite drain_filter in Hm, Hin. simpl in Hm, Hin.
    apply filter_In in Hm as [_ Hdue].
    apply filter_In in Hin as [_ Hndue].
    rewrite Hdue in Hndue. discriminate.
  - intros t q m Hd Hm Hin. rewrite drain_filter in Hm, Hin. simpl in Hm, Hin.
    apply in_map_iff in Hin as (m' & Eid & Hm').
    apply filter_In in Hm as [Hmq Hdue].
    apply filter_In in Hm' as [Hm'q Hndue].
    assert (E : m' = m) by (apply (NoDup_map_id_eq q); assumption).
    subst m'. rewrite Hdue in Hndue. discriminate.
  - apply deliver_one_reinserts.
  - intros body m st f Hi Hf Hb.
    apply (deliver_one_cancel_id body m st f (id m) Hi Hf Hb).
  - intros body m st f Hi Hf Hb Hx.
    rewrite (deliver_one_cancel_id body m st f (id m) Hi Hf Hb).
    rewrite <- cancel_loop_filter, (cancel_loop_absent _ _ Hx). reflexivity.
Qed.

(** ** Witnesses *)

Lemma C1_witness :
  (run body_late_post [ESched; EPost (Some 0%nat) 0 0; ESched] (AtHead, init_state 0) =
    Some (AtHead, snd (run_config body_late_post [ESched; EPost (Some 0%nat) 0 0; ESched]
                                  (AtHead, init_state 0))) /\
  let st := snd (run_config body_late_post [ESched; EPost (Some 0%nat) 0 0; ESched]
                            (AtHead, init_state 0)) in
  let (b, r) := drain (now st) (queue st) in
  sortedq b /\
  b = filter (due (now st)) (queue st) /\
  r = filter (fun m => negb (due (now st) m)) (queue st) /\
  exists E,
    log (deliver body_late_post b (set_queue r st)) = log st ++ E /\
    Forall2 (fun m e => id e = id m /\ func e = func m /\
                        (deliverAt m <> 0 -> deliverAt e = deliverAt m))
            (filter has_func b) E) /\
  (run body_idle tie_events (AtHead, init_state 0) =
     Some (run_config body_idle tie_events (AtHead, init_state 0)) /\
   exists x', t_run body_idle tie_events (AtHead, t_init 0) =
                Some (fst (run_config body_idle tie_events (AtHead, init_state 0)), x') /\
     tst x' = snd (run_config body_idle tie_events (AtHead, init_state 0)) /\
     map snd (tq x') = queue (snd (run_config body_idle tie_events (AtHead, init_state 0))) /\
     StronglySorted lex_before (tq x') /\
     StronglySorted tie_before (tlog x') /\
     Forall2 tlink (tlog x') (log (snd (run_config body_idle tie_events (AtHead, init_state 0))))).
Proof.
  split.
  - split; [vm_compute; reflexivity|].
    apply (proj1 C1_batch_delivered_in_queue_order body_late_post
             [ESched; EPost (Some 0%nat) 0 0; ESched] 0%N AtHead).
    vm_compute. reflexivity.
  - split; [vm_compute; reflexivity|].
    apply (proj2 C1_batch_delivered_in_queue_order body_idle tie_events 0%N).
    vm_compute. reflexivity.
Defined.

Lemma C2_witness :
  run body_late_post late_post_events (AtHead, init_state 0) =
    Some (run_config body_late_post late_post_events (AtHead, init_state 0)) /\
  sortedq (queue (snd (run_config body_late_post late_post_events (AtHead, init_state 0)))) /\
  sortedq [msg_sentinel; msg_at20] /\
  sortedq (InsertMessageInternal msg_at20 [msg_sentinel; msg_at20]) /\
  exists l1 l2, [msg_sentinel; msg_at20] = l1 ++ l2 /\
    InsertMessageInternal msg_at20 [msg_sentinel; msg_at20] = l1 ++ msg_at20 :: l2 /\
    Forall (fun y => deliverAt y <= deliverAt msg_at20) l1 /\
    Forall (fun y => deliverAt msg_at20 < deliverAt y) l2.
Proof.
  assert (Hr : run body_late_post late_post_events (AtHead, init_state 0) =
               Some (run_config body_late_post late_post_events (AtHead, init_state 0)))
    by (vm_compute; reflexivity).
  assert (Hs : sortedq [msg_sentinel; msg_at20]).
  { unfold sortedq. repeat constructor; unfold le_d; simpl; lia. }
  split; [exact Hr|]. split.
  - apply (proj1 C2_queue_sorted_insert_position body_late_post late_post_events 0%N _ Hr).
  - split; [exact Hs|].
    apply (proj2 C2_queue_sorted_insert_position msg_at20 _ Hs).
Defined.

Lemma C3_witness :
  (lastMessageID st_at7 < uint32_modulus)%N /\
  let (st', r) := Post (Some 0%nat) 5 10 st_at7 in
  r = lastMessageID st_at7 /\
  queue st' = InsertMessageInternal
                (mkMessage r (if 5 =? 0 then 0 else now st_at7 + 5) 10 (Some 0%nat))
                (queue st_at7) /\
  lastMessageID st' = N.modulo (r + 1) uint32_modulus /\
  ((r < uint32_modulus - 1)%N -> lastMessageID st' = (r + 1)%N /\ (r < lastMessageID st')%N) /\
  (r = uint32_modulus - 1 -> lastMessageID st' = 0)%N /\
  running st' = running st_at7 /\ hardStopped st' = hardStopped st_at7 /\
  now st' = now st_at7 /\ log st' = log st_at7.
Proof.
  assert (H : (lastMessageID st_at7 < uint32_modulus)%N) by (vm_compute; reflexivity).
  split; [exact H|]. apply (C3_post_spec (Some 0%nat) 5 10 st_at7 H).
Defined.

Lemma C4_witness :
  ~ In 7%N (map id (queue st_hard)) /\ Cancel 7 st_hard = st_hard /\
  queue (Cancel 0 st_hard) = [].
Proof.
  assert (H : ~ In 7%N (map id (queue st_hard))) by (simpl; lia).
  split; [exact H|]. split.
  - apply (proj2 (proj2 (proj2 (C4_cancel_spec 7 st_hard))) H).
  - rewrite (proj1 (C4_cancel_spec 0 st_hard)). vm_compute. reflexivity.
Defined.

Lemma C5_witness :
  (cancelCurrent (invoke body_cancel_third (stamp msg_at20 (now st_after_two))
                         (set_cancelCurrent false st_after_two)) = true /\
   deliver_one body_cancel_third msg_at20 st_after_two =
     invoke body_cancel_third (stamp msg_at20 (now st_after_two))
            (set_cancelCurrent false st_after_two)) /\
  (In OCancelSelf (body_cancel_third 0 2) /\
   Forall (fun e => event_posts 0 e = false)
          ([ESched] ++ [ESched; ESched; ETick 10; ESched; ESched; ETick 10; ESched; ESched]) /\
   run body_cancel_third
       ([ESched] ++ EPost (Some 0%nat) 0 10 ::
        [ESched; ESched; ETick 10; ESched; ESched; ETick 10; ESched; ESched])
       (AtHead, init_state 0) =
     Some (run_config body_cancel_third repeat_events (AtHead, init_state 0)) /\
   (count_calls 0 (log (snd (run_config body_cancel_third repeat_events
                                          (AtHead, init_state 0)))) <= 3)%nat /\
   (count_calls 0 (log (snd (run_config body_cancel_third repeat_events
                                          (AtHead, init_state 0)))) = 3%nat ->
      no_task_of 0 (queue (snd (run_config body_cancel_third repeat_events
                                           (AtHead, init_state 0)))) /\
      forall evs3 c'',
        Forall (fun e => event_posts 0 e = false) evs3 ->
        run body_cancel_third evs3
            (run_config body_cancel_third repeat_events (AtHead, init_state 0)) = Some c'' ->
        count_calls 0 (log (snd c'')) = 3%nat)).
Proof.
  split.
  - assert (H : cancelCurrent (invoke body_cancel_third (stamp msg_at20 (now st_after_two))
                                      (set_cancelCurrent false st_after_two)) = true)
      by (vm_compute; reflexivity).
    split; [exact H|].
    apply (proj1 (proj2 C5_cancel_self_stops_repeating) body_cancel_third msg_at20
             st_after_two H).
  - assert (H3 : In OCancelSelf (body_cancel_third 0 2)) by (simpl; left; reflexivity).
    assert (He : Forall (fun e => event_posts 0 e = false)
          ([ESched] ++ [ESched; ESched; ETick 10; ESched; ESched; ETick 10; ESched; ESched]))
      by (repeat constructor).
    assert (Hr : run body_cancel_third
       ([ESched] ++ EPost (Some 0%nat) 0 10 ::
        [ESched; ESched; ETick 10; ESched; ESched; ETick 10; ESched; ESched])
       (AtHead, init_state 0) =
       Some (run_config body_cancel_third repeat_events (AtHead, init_state 0)))
      by (vm_compute; reflexivity).
    split; [exact H3|]. split; [exact He|]. split; [exact Hr|].
    apply (proj1 (proj2 (proj2 C5_cancel_self_stops_repeating)) body_cancel_third 0%nat 0%N
             [ESched] 0 10
             [ESched; ESched; ETick 10; ESched; ESched; ETick 10; ESched; ESched] _
             body_cancel_third_no_post H3 He Hr).
Defined.

Lemma C6_witness :
  0 < interval msg_sentinel /\
  cancelCurrent (invoke body_late_post (stamp msg_sentinel (now st_at7))
                        (set_cancelCurrent false st_at7)) = false /\
  let m1 := stamp msg_sentinel (now st_at7) in
  let next := with_deliverAt (deliverAt m1 + interval msg_sentinel) m1 in
  deliverAt m1 = (if deliverAt msg_sentinel =? 0 then now st_at7 else deliverAt msg_sentinel) /\
  queue (deliver_one body_late_post msg_sentinel st_at7) =
    InsertMessageInternal next (queue (invoke body_late_post m1 (set_cancelCurrent false st_at7))) /\
  (0 <= deliverAt m1 -> forall t, stamp next t = next).
Proof.
  assert (H1 : 0 < interval msg_sentinel) by (simpl; lia).
  assert (H2 : cancelCurrent (invoke body_late_post (stamp msg_sentinel (now st_at7))
                                     (set_cancelCurrent false st_at7)) = false)
    by (vm_compute; reflexivity).
  split; [exact H1|]. split; [exact H2|].
  apply (C6_reinsert_from_intended_time body_late_post msg_sentinel st_at7 H1 H2).
Defined.

Lemma C7_witness :
  hardStopped st_hard = true /\ running st_hard = true /\
  post_wait body_late_post st_hard =
    (set_queue (snd (drain (now st_hard) (queue st_hard))) st_hard, false) /\
  run body_late_post [EPost (Some 0%nat) 0 0; ESched] (Waiting, HardStop (init_state 0)) =
    Some (run_config body_late_post [EPost (Some 0%nat) 0 0; ESched]
                     (Waiting, HardStop (init_state 0))) /\
  log (snd (run_config body_late_post [EPost (Some 0%nat) 0 0; ESched]
                       (Waiting, HardStop (init_state 0)))) = log (init_state 0).
Proof.
  assert (H1 : hardStopped st_hard = true) by reflexivity.
  assert (H2 : running st_hard = true) by reflexivity.
  assert (H3 : run body_late_post [EPost (Some 0%nat) 0 0; ESched] (Waiting, HardStop (init_state 0)) =
    Some (run_config body_late_post [EPost (Some 0%nat) 0 0; ESched]
                     (Waiting, HardStop (init_state 0)))) by (vm_compute; reflexivity).
  split; [exact H1|]. split; [exact H2|]. split.
  - apply (proj1 C7_hardstop_no_more_callbacks body_late_post st_hard H1 H2).
  - split; [exact H3|].
    apply (proj2 (proj2 C7_hardstop_no_more_callbacks) body_late_post _ Waiting _ _ H3).
Defined.

Lemma C10_witness :
  (In msg_at20 (fst (drain 20 [msg_at20; mkMessage 1 30 0 None])) /\
   ~ In msg_at20 (snd (drain 20 [msg_at20; mkMessage 1 30 0 None]))) /\
  (NoDup (map id [msg_at20; mkMessage 1 30 0 None]) /\
   ~ In (id msg_at20) (map id (snd (drain 20 [msg_at20; mkMessage 1 30 0 None])))) /\
  queue (deliver_one body_cancel_own_id msg_at20 st_at7) =
    InsertMessageInternal
      (with_deliverAt (deliverAt (stamp msg_at20 (now st_at7)) + interval msg_at20)
                      (stamp msg_at20 (now st_at7)))
      (queue (invoke body_cancel_own_id (stamp msg_at20 (now st_at7))
                     (set_cancelCurrent false st_at7))) /\
  queue (deliver_one body_cancel_own_id msg_at20 st_at7) =
    InsertMessageInternal
      (with_deliverAt (deliverAt (stamp msg_at20 (now st_at7)) + interval msg_at20)
                      (stamp msg_at20 (now st_at7)))
      (filter (fun y => negb (id y =? id msg_at20)%N) (queue st_at7)) /\
  queue (deliver_one body_cancel_own_id msg_at20 st_at7) =
    InsertMessageInternal
      (with_deliverAt (deliverAt (stamp msg_at20 (now st_at7)) + interval msg_at20)
                      (stamp msg_at20 (now st_at7)))
      (queue st_at7).
Proof.
  assert (H1 : NoDup (map id [msg_at20; mkMessage 1 30 0 None])).
  { simpl. constructor; [simpl; lia|]. constructor; [simpl; lia|constructor]. }
  assert (H2 : In msg_at20 (fst (drain 20 [msg_at20; mkMessage 1 30 0 None])))
    by (simpl; left; reflexivity).
  split; [split; [exact H2|apply (proj1 C10_cancel_own_id_does_not_stop_repeat _ _ _ H2)]|].
  split; [split; [exact H1|apply (proj1 (proj2 C10_cancel_own_id_does_not_stop_repeat)
                                    _ _ _ H1 H2)]|].
  split; [|split].
  - apply (proj1 (proj2 (proj2 C10_cancel_own_id_does_not_stop_repeat))
             body_cancel_own_id msg_at20 st_at7 0%nat);
      [simpl; lia|reflexivity|simpl; intros [H|H]; [discriminate|exact H]].
  - apply (proj1 (proj2 (proj2 (proj2 C10_cancel_own_id_does_not_stop_repeat)))
             body_cancel_own_id msg_at20 st_at7 0%nat);
      [simpl; lia|reflexivity|reflexivity].
  - apply (proj2 (proj2 (proj2 (proj2 C10_cancel_own_id_does_not_stop_repeat)))
             body_cancel_own_id msg_at20 st_at7 0%nat);
      [simpl; lia|reflexivity|reflexivity|simpl; lia].
Defined.

(** ** Further properties of the code *)

(** X2: on any queue, sorted or not, [InsertMessageInternal] adds the new
    task exactly once and keeps the other tasks, in their order. *)
Theorem X2_insert_adds_one_task : forall m q, exists l1 l2,
  q = l1 ++ l2 /\ InsertMessageInternal m q = l1 ++ m :: l2.
Proof.
  intros m [|q0 r].
  - exists [], []. split; reflexivity.
  - unfold InsertMessageInternal.
    destruct (deliverAt m <? deliverAt q0).
    + exists [], (q0 :: r). split; reflexivity.
    + apply insert_after_loop_any.
Qed.

(** X1: cancelling the id returned by [Post] (before the task is
    delivered) gives back the queue as it was before the [Post], when no
    queued task already carried that id; only the id counter has moved. *)
Theorem X1_post_then_cancel : forall f delay ival st,
  ~ In (lastMessageID st) (map id (queue st)) ->
  let (st', r) := Post f delay ival st in
  queue (Cancel r st') = queue st /\
  lastMessageID (Cancel r st') = uint32_succ (lastMessageID st).
Proof.
  intros f delay ival st Hx. simpl. split; [|reflexivity].
  destruct (X2_insert_adds_one_task
              (mkMessage (lastMessageID st) (if delay =? 0 then 0 else now st + delay) ival f)
              (queue st)) as (l1 & l2 & Eq & Ei).
  rewrite Ei, cancel_loop_filter, filter_app. simpl. rewrite N.eqb_refl. simpl.
  rewrite <- filter_app, <- cancel_loop_filter, <- Eq.
  apply cancel_loop_absent, Hx.
Qed.

(** X3: [Cancel] is idempotent, and two cancellations commute. *)
Theorem X3_cancel_idempotent_commute : forall x y st,
  Cancel x (Cancel x st) = Cancel x st /\
  Cancel x (Cancel y st) = Cancel y (Cancel x st).
Proof.
  intros x y st. unfold Cancel, set_queue. simpl. rewrite !cancel_loop_filter.
  split; f_equal.
  - induction (queue st) as [|m q IH]; simpl; [reflexivity|].
    destruct (id m =? x)%N eqn:E; simpl; [exact IH|]. rewrite E. simpl. f_equal. exact IH.
  - induction (queue st) as [|m q IH]; simpl; [reflexivity|].
    destruct (id m =? y)%N eqn:Ey, (id m =? x)%N eqn:Ex; simpl;
      rewrite ?Ex, ?Ey; simpl; first [exact IH | f_equal; exact IH].
Qed.

(** X4: the worker never sleeps while a task is due, and never skips
    the wait without delivering something: on a sorted queue with the
    clock at or after 0, when [Run] decides to wait the drain would take
    nothing, and when it does not wait the head of the queue is due and
    in the batch. *)
Theorem X4_wait_iff_nothing_due : forall st,
  sortedq (queue st) -> 0 <= now st ->
  (should_wait st = true -> fst (drain (now st) (queue st)) = []) /\
  (should_wait st = false -> exists m rest,
     queue st = m :: rest /\ In m (fst (drain (now st) (queue st)))).
Proof.
  intros st Hs Hn. unfold should_wait. rewrite drain_filter. simpl.
  destruct (queue st) as [|q0 r] eqn:Eq.
  - split; [reflexivity|discriminate].
  - split.
    + intros Hw. apply Z.ltb_lt in Hw.
      apply filter_all_false. intros x Hx.
      assert (Hd : deliverAt q0 <= deliverAt x).
      { destruct Hx as [<-|Hx]; [lia|].
        unfold sortedq in Hs. inversion Hs as [|? ? _ Hf]; subst.
        rewrite Forall_forall in Hf. apply (Hf x Hx). }
      unfold due. apply orb_false_iff. split; [apply Z.eqb_neq; lia|apply Z.leb_gt; lia].
    + intros Hw. apply Z.ltb_ge in Hw. exists q0, r. split; [reflexivity|].
      apply filter_In. split; [left; reflexivity|].
      unfold due. apply orb_true_iff. right. apply Z.leb_le. lia.
Qed.

(** X5: on a sorted queue whose times are non-negative, the tasks a
    cycle drains form a prefix of the queue: the queue is the batch
    followed by what stays queued. *)
Theorem X5_drain_takes_prefix : forall t q,
  sortedq q -> Forall (fun m => 0 <= deliverAt m) q ->
  q = fst (drain t q) ++ snd (drain t q).
Proof.
  intros t q Hs Hn; induction q as [|m q IH]; [reflexivity|].
  inversion Hs as [|? ? Hs' Hm]; subst. inversion Hn as [|? ? Hm0 Hn']; subst.
  simpl. destruct (drain t q) as [b r] eqn:Ed.
  change ((deliverAt m =? 0) || (deliverAt m <=? t)) with (due t m).
  destruct (due t m) eqn:Edue; simpl.
  - f_equal. rewrite (IH Hs' Hn'). reflexivity.
  - rewrite drain_filter in Ed. injection Ed as Eb Er.
    unfold due in Edue. apply orb_false_iff in Edue as [E0 Et].
    apply Z.eqb_neq in E0. apply Z.leb_gt in Et.
    assert (Hnd : forall x, In x q -> due t x = false).
    { intros x Hx. rewrite Forall_forall in Hm. specialize (Hm x Hx). unfold le_d in Hm.
      unfold due. apply orb_false_iff. split; [apply Z.eqb_neq; lia|apply Z.leb_gt; lia]. }
    rewrite <- Eb, <- Er, (filter_all_false _ _ Hnd). simpl. f_equal.
    symmetry. apply filter_all_true. intros x Hx. rewrite (Hnd x Hx). reflexivity.
Qed.

(** X6: a task with [interval <= 0] is one-shot: after its callback it
    is not put back into the queue. *)
Theorem X6_one_shot_not_reinserted : forall body m st,
  interval m <= 0 ->
  deliver_one body m st = invoke body (stamp m (now st)) (set_cancelCurrent false st).
Proof.
  intros body m st Hi. unfold deliver_one. simpl.
  destruct (stamp_fields m (now st)) as (_ & _ & Ei & _). rewrite Ei.
  assert (E : (0 <? interval m) = false) by (apply Z.ltb_ge; exact Hi).
  rewrite E, andb_false_r. reflexivity.
Qed.

(** X7: a task whose callback is null is delivered without any call,
    and a repeating one is still rescheduled [interval] after its
    intended time. *)
Theorem X7_null_callback_still_rescheduled : forall body m st,
  func m = None ->
  log (deliver_one body m st) = log st /\
  (0 < interval m ->
   queue (deliver_one body m st) =
   InsertMessageInternal
     (with_deliverAt (deliverAt (stamp m (now st)) + interval m) (stamp m (now st)))
     (queue st)).
Proof.
  intros body m st Hf.
  destruct (stamp_fields m (now st)) as (_ & Ef & Ei & _).
  split.
  - rewrite deliver_one_log. unfold has_func. rewrite Hf, app_nil_r. reflexivity.
  - intros Hi. unfold deliver_one, invoke. simpl. rewrite Ef, Hf. simpl.
    rewrite Ei. assert (E : (0 <? interval m) = true) by (apply Z.ltb_lt; exact Hi).
    rewrite E. reflexivity.
Qed.

Lemma step_stopped_log : forall body e c c',
  step body e c = Some c' -> running (snd c) = false ->
  running (snd c') = false /\ log (snd c') = log (snd c).
Proof.
  intros body e [p st] c' Hst Hr; simpl in Hr |- *.
  assert (Haw : running (snd (after_wait body st)) = false /\
                log (snd (after_wait body st)) = log st).
  { unfold after_wait, post_wait. rewrite Hr. simpl. auto. }
  destruct e; simpl in Hst.
  - destruct p; [| |discriminate].
    + rewrite Hr in Hst. simpl in Hst. injection Hst as <-. simpl; auto.
    + injection Hst as <-. exact Haw.
  - destruct p; simpl in Hst; try discriminate; injection Hst as <-; simpl; auto.
  - destruct p; simpl in Hst; try discriminate; injection Hst as <-; simpl; auto.
  - destruct p; simpl in Hst; try discriminate; injection Hst as <-; simpl; auto.
  - destruct p; simpl in Hst; try discriminate; injection Hst as <-; simpl; auto.
  - injection Hst as <-. simpl; auto.
Qed.

(** X8: a graceful [Stop] is final: whatever the worker and the other
    threads do afterwards (including new [Post] calls), [running] stays
    false and no callback is invoked again. *)
Theorem X8_no_callback_after_stop : forall body evs p st c',
  run body evs (p, Stop st) = Some c' ->
  running (snd c') = false /\ log (snd c') = log st.
Proof.
  intros body evs. induction evs as [|e evs IH]; intros p st c' Hr.
  - simpl in Hr. injection Hr as <-. simpl. auto.
  - assert (Gen : forall c, running (snd c) = false -> run body (e :: evs) c = Some c' ->
                            running (snd c') = false /\ log (snd c') = log (snd c)).
    { clear IH p st Hr. revert e. induction evs as [|e' evs IH']; intros e c Hc Hr'.
      - simpl in Hr'. destruct (step body e c) as [c1|] eqn:E; [|discriminate].
        injection Hr' as <-. apply (step_stopped_log body e c c1 E Hc).
      - simpl in Hr'. destruct (step body e c) as [c1|] eqn:E; [|discriminate].
        destruct (step_stopped_log body e c c1 E Hc) as [H1 H2].
        destruct (IH' e' c1 H1 Hr') as [H3 H4]. split; congruence. }
    apply (Gen (p, Stop st) eq_refl Hr).
Qed.

Definition audio_inv (s : AudioCallbackState) : Prop :=
  cb_active s = cb_running s /\
  thread_starts s = (thread_joins s + if cb_running s then 1 else 0)%nat.

Lemma input_call_inv : forall c s, audio_inv s -> audio_inv (input_call c s).
Proof.
  unfold audio_inv. intros [] [r a st jn] [Ha Hs]; simpl in *; subst;
    destruct r; simpl; split; try reflexivity; lia.
Qed.

Lemma output_call_inv : forall c s, audio_inv s -> audio_inv (output_call c s).
Proof.
  unfold audio_inv. intros [] [r a st jn] [Ha Hs]; simpl in *; subst;
    destruct r; simpl; split; try reflexivity; lia.
Qed.

Lemma fold_inv : forall (call : audio_call -> AudioCallbackState -> AudioCallbackState),
  (forall c s, audio_inv s -> audio_inv (call c s)) ->
  forall calls s, audio_inv s -> audio_inv (fold_left (fun s c => call c s) calls s).
Proof.
  intros call Hc calls; induction calls as [|c calls IH]; intros s Hs; simpl; [exact Hs|].
  apply IH, Hc, Hs.
Qed.

(** X10: on an input or output callback object, after any sequence of
    [Start] and [Stop] calls from construction, [recording] / [playing]
    equals [running], and [thread->Start()] has been called exactly once
    more than [thread->Join()] while running and as often when stopped:
    no second worker is started while one runs, and every started worker
    is joined by [Stop]. *)
Theorem X10_audio_start_stop_invariant : forall calls,
  audio_inv (fold_left (fun s c => input_call c s) calls AudioCallback_new) /\
  audio_inv (fold_left (fun s c => output_call c s) calls AudioCallback_new).
Proof.
  intros calls. split; apply fold_inv;
    [exact input_call_inv| |exact output_call_inv|]; split; reflexivity.
Qed.

(** X11: [Start] and [Stop] of both callback classes are idempotent on
    every state: a second [Start] starts no thread, a second [Stop] joins
    no thread. *)
Theorem X11_audio_start_stop_idempotent : forall s,
  AudioInputCallback_Start (AudioInputCallback_Start s) = AudioInputCallback_Start s /\
  AudioInputCallback_Stop (AudioInputCallback_Stop s) = AudioInputCallback_Stop s /\
  AudioOutputCallback_Start (AudioOutputCallback_Start s) = AudioOutputCallback_Start s /\
  AudioOutputCallback_Stop (AudioOutputCallback_Stop s) = AudioOutputCallback_Stop s.
Proof. intros [[] a st jn]; repeat split; reflexivity. Qed.

(** X12: on a reachable object, [Stop] always leaves [recording] /
    [playing] false (also when it returns early because the object is not
    running) and [Start] always leaves it true; so [IsPlaying] is false
    after [Stop] and true after [Start]. *)
Theorem X12_audio_active_after_start_stop : forall s,
  audio_inv s ->
  cb_active (AudioInputCallback_Stop s) = false /\
  cb_active (AudioInputCallback_Start s) = true /\
  IsPlaying (AudioOutputCallback_Stop s) = false /\
  IsPlaying (AudioOutputCallback_Start s) = true.
Proof.
  intros [[] a st jn] [Ha _]; simpl in *; subst; repeat split; reflexivity.
Qed.

(** ** Witnesses of the further properties *)

Lemma X1_witness :
  ~ In (lastMessageID st_hard) (map id (queue st_hard)) /\
  let (st', r) := Post (Some 0%nat) 5 10 st_hard in
  queue (Cancel r st') = queue st_hard /\
  lastMessageID (Cancel r st') = uint32_succ (lastMessageID st_hard).
Proof.
  assert (H : ~ In (lastMessageID st_hard) (map id (queue st_hard))) by (simpl; lia).
  split; [exact H|]. apply (X1_post_then_cancel (Some 0%nat) 5 10 st_hard H).
Defined.

Lemma X4_witness :
  sortedq (queue st_hard) /\ 0 <= now st_hard /\
  (should_wait st_hard = true -> fst (drain (now st_hard) (queue st_hard)) = []) /\
  (should_wait st_hard = false -> exists m rest,
     queue st_hard = m :: rest /\ In m (fst (drain (now st_hard) (queue st_hard)))).
Proof.
  assert (H1 : sortedq (queue st_hard)) by (repeat constructor).
  assert (H2 : 0 <= now st_hard) by (simpl; lia).
  split; [exact H1|]. split; [exact H2|]. apply (X4_wait_iff_nothing_due st_hard H1 H2).
Defined.

Lemma X5_witness :
  sortedq [msg_sentinel; msg_at20; mkMessage 1 30 0 None] /\
  Forall (fun m => 0 <= deliverAt m) [msg_sentinel; msg_at20; mkMessage 1 30 0 None] /\
  [msg_sentinel; msg_at20; mkMessage 1 30 0 None] =
    fst (drain 20 [msg_sentinel; msg_at20; mkMessage 1 30 0 None]) ++
    snd (drain 20 [msg_sentinel; msg_at20; mkMessage 1 30 0 None]).
Proof.
  assert (H1 : sortedq [msg_sentinel; msg_at20; mkMessage 1 30 0 None]).
  { unfold sortedq. repeat constructor; unfold le_d; simpl; lia. }
  assert (H2 : Forall (fun m => 0 <= deliverAt m) [msg_sentinel; msg_at20; mkMessage 1 30 0 None]).
  { repeat constructor; simpl; lia. }
  split; [exact H1|]. split; [exact H2|]. apply (X5_drain_takes_prefix 20 _ H1 H2).
Defined.

Lemma X6_witness :
  interval (mkMessage 1 30 0 (Some 0%nat)) <= 0 /\
  deliver_one body_late_post (mkMessage 1 30 0 (Some 0%nat)) st_at7 =
    invoke body_late_post (stamp (mkMessage 1 30 0 (Some 0%nat)) (now st_at7))
           (set_cancelCurrent false st_at7).
Proof.
  assert (H : interval (mkMessage 1 30 0 (Some 0%nat)) <= 0) by (simpl; lia).
  split; [exact H|]. apply (X6_one_shot_not_reinserted body_late_post _ st_at7 H).
Defined.

Lemma X7_witness :
  func (mkMessage 1 30 10 None) = None /\ 0 < interval (mkMessage 1 30 10 None) /\
  log (deliver_one body_late_post (mkMessage 1 30 10 None) st_at7) = log st_at7 /\
  queue (deliver_one body_late_post (mkMessage 1 30 10 None) st_at7) =
    InsertMessageInternal
      (with_deliverAt (deliverAt (stamp (mkMessage 1 30 10 None) (now st_at7)) +
                       interval (mkMessage 1 30 10 None))
                      (stamp (mkMessage 1 30 10 None) (now st_at7)))
      (queue st_at7).
Proof.
  assert (H1 : func (mkMessage 1 30 10 None) = None) by reflexivity.
  assert (H2 : 0 < interval (mkMessage 1 30 10 None)) by (simpl; lia).
  destruct (X7_null_callback_still_rescheduled body_late_post _ st_at7 H1) as [L Q].
  split; [exact H1|]. split; [exact H2|]. split; [exact L|exact (Q H2)].
Defined.

Lemma X8_witness :
  run body_late_post [EPost (Some 0%nat) 0 0; ESched] (Waiting, Stop (init_state 0)) =
    Some (run_config body_late_post [EPost (Some 0%nat) 0 0; ESched]
                     (Waiting, Stop (init_state 0))) /\
  running (snd (run_config body_late_post [EPost (Some 0%nat) 0 0; ESched]
                           (Waiting, Stop (init_state 0)))) = false /\
  log (snd (run_config body_late_post [EPost (Some 0%nat) 0 0; ESched]
                       (Waiting, Stop (init_state 0)))) = log (init_state 0).
Proof.
  assert (H : run body_late_post [EPost (Some 0%nat) 0 0; ESched] (Waiting, Stop (init_state 0)) =
    Some (run_config body_late_post [EPost (Some 0%nat) 0 0; ESched]
                     (Waiting, Stop (init_state 0)))) by (vm_compute; reflexivity).
  split; [exact H|]. apply (X8_no_callback_after_stop body_late_post _ Waiting _ _ H).
Defined.

Lemma X12_witness :
  audio_inv (AudioInputCallback_Start AudioCallback_new) /\
  cb_active (AudioInputCallback_Stop (AudioInputCallback_Start AudioCallback_new)) = false /\
  cb_active (AudioInputCallback_Start (AudioInputCallback_Start AudioCallback_new)) = true /\
  IsPlaying (AudioOutputCallback_Stop (AudioInputCallback_Start AudioCallback_new)) = false /\
  IsPlaying (AudioOutputCallback_Start (AudioInputCallback_Start AudioCallback_new)) = true.
Proof.
  assert (H : audio_inv (AudioInputCallback_Start AudioCallback_new))
    by (split; reflexivity).
  split; [exact H|]. apply (X12_audio_active_after_start_stop _ H).
Defined.
